(** * The consume stream bridge of proximo-server

    A shallow embedding of [consumeServer.Consume]: the three functions it
    hands to the coordination group (inbound reader, outbound writer,
    handler invoker), the exit rule that follows [g.Wait()], and the
    interleavings of the three goroutines with their environment (the
    network stream, the backend handler, the stream's context). *)

From Stdlib Require Import String Ascii List Bool Arith Lia ZArith.
Import ListNotations.
Open Scope string_scope.
Open Scope list_scope.

(** ** Errors *)

(** The gRPC codes that occur ([codes.OK] cannot be the code of an error). *)
Inductive Code : Type :=
| Canceled
| Unknown
| InvalidArgument
| DeadlineExceeded
| Unavailable
| Internal.

Definition Code_String (c : Code) : string :=
  match c with
  | Canceled => "Canceled"
  | Unknown => "Unknown"
  | InvalidArgument => "InvalidArgument"
  | DeadlineExceeded => "DeadlineExceeded"
  | Unavailable => "Unavailable"
  | Internal => "Internal"
  end.

(** A non-nil Go [error].  The sentinels the bridge compares against with
    [==] are constructors of their own; an error of any other origin is known
    to the bridge only through its text. *)
Inductive error : Type :=
| io_EOF
| context_Canceled
| context_DeadlineExceeded
| status_Error (c : Code) (msg : string)
| other_error (text : string).

(** [err.Error()] *)
Definition Error (e : error) : string :=
  match e with
  | io_EOF => "EOF"
  | context_Canceled => "context canceled"
  | context_DeadlineExceeded => "context deadline exceeded"
  | status_Error c msg =>
      ("rpc error: code = " ++ Code_String c ++ " desc = " ++ msg)%string
  | other_error text => text
  end.

Definition Code_eqb (a b : Code) : bool :=
  match a, b with
  | Canceled, Canceled | Unknown, Unknown
  | InvalidArgument, InvalidArgument | DeadlineExceeded, DeadlineExceeded
  | Unavailable, Unavailable | Internal, Internal => true
  | _, _ => false
  end.

(** [a == b] on errors *)
Definition error_eqb (a b : error) : bool :=
  match a, b with
  | io_EOF, io_EOF => true
  | context_Canceled, context_Canceled => true
  | context_DeadlineExceeded, context_DeadlineExceeded => true
  | status_Error c m, status_Error c' m' => Code_eqb c c' && String.eqb m m'
  | other_error t, other_error t' => String.eqb t t'
  | _, _ => false
  end.

(** The class of an error as the wire reports it: the code of a status
    error, nothing for an error that carries none. *)
Definition code_of (e : error) : option Code :=
  match e with
  | status_Error c _ => Some c
  | _ => None
  end.

(** [strings.HasSuffix]:
    [len(s) >= len(suffix) && s[len(s)-len(suffix):] == suffix] *)
Definition HasSuffix (s suffix : string) : bool :=
  Nat.leb (String.length suffix) (String.length s) &&
  String.eqb
    (substring (String.length s - String.length suffix)
               (String.length suffix) s)
    suffix.

(** The package-level error values, lines 15-20. *)
Definition errStartedTwice : error :=
  status_Error InvalidArgument "consumption already started".
Definition errInvalidConfirm : error :=
  status_Error InvalidArgument "invalid confirmation".
Definition errNotConnected : error :=
  status_Error InvalidArgument "not connected to a topic".
Definition errInvalidRequest : error :=
  status_Error InvalidArgument
    "invalid consumer request - this is possibly a bug in your client library".

(** ** Wire messages and the session configuration *)

(** [proto.Offset] is an enumeration carried as a 32-bit integer; the bridge
    copies it and never inspects it. *)
Definition Offset : Type := Z.

Record StartConsumeRequest : Type := {
  sr_Topic : string;
  sr_Consumer : string;
  sr_InitialOffset : Offset
}.

Record Confirmation : Type := { MsgID : string }.

Record Message : Type := { msg_Id : string; msg_Data : string }.

(** The inbound envelope.  The bridge reads it through the two getters only,
    each of which is nil or not. *)
Record ConsumerRequest : Type := {
  GetStartRequest : option StartConsumeRequest;
  GetConfirmation : option Confirmation
}.

(** lines 22-26 *)
Record consumerConfig : Type := {
  consumer : string;
  topic : string;
  offset : Offset
}.

(** What a task function returns: nil ([None]) or an error. *)
Definition result : Type := option error.

(** ** The coordination group *)

(** Modelled from the spec: package [gogroup] is imported by the bridge and
    is not among the sources.  A group is known through what it does with
    the values its tasks return, taken in the order in which they return:
    whether it has cancelled the shared scope, and what [Wait] reports once
    every task has returned.  The laws are the contract the bridge relies
    on: a fresh group has not cancelled; a task returning a non-nil error
    cancels the scope; cancellation is final; an error returned before any
    other task has returned is the one [Wait] reports; and [Wait] reports
    nil or an error some task returned. *)
Record Group : Type := {
  group_cancels : list result -> bool;
  group_Wait : list result -> result;
  group_fresh : group_cancels [] = false;
  group_error_cancels :
    forall rs e, In (Some e) rs -> group_cancels rs = true;
  group_cancel_final :
    forall rs r, group_cancels rs = true -> group_cancels (rs ++ [r]) = true;
  group_first_error :
    forall e rs, group_Wait (Some e :: rs) = Some e;
  group_Wait_origin :
    forall rs e, group_Wait rs = Some e -> In (Some e) rs
}.

Definition is_error (r : result) : bool :=
  match r with Some _ => true | None => false end.

(** The first non-nil error of a list of returns. *)
Fixpoint first_error (rs : list result) : result :=
  match rs with
  | [] => None
  | Some e :: _ => Some e
  | None :: rs' => first_error rs'
  end.

(** Modelled from the spec: "the first task to return a non-nil error
    cancels the shared scope; Wait blocks until all tasks exit and returns
    the first non-nil error, if any". *)
Definition first_error_group : Group.
Proof.
  refine {| group_cancels := existsb is_error;
            group_Wait := first_error |}.
  - reflexivity.
  - intros rs e H. apply existsb_exists.
    exists (Some e). split; [exact H | reflexivity].
  - intros rs r H. rewrite existsb_app, H. reflexivity.
  - reflexivity.
  - intros rs e. induction rs as [|[x|] rs IH]; simpl; intro H.
    + discriminate H.
    + left. exact H.
    + right. exact (IH H).
Defined.

(** A group whose scope ends with the first task to return, whatever it
    returns, and whose [Wait] reports what that task returned: with it a
    clean end of the inbound stream winds the whole session down. *)
Definition first_return_group : Group.
Proof.
  refine {| group_cancels := fun rs => negb (Nat.eqb (length rs) 0);
            group_Wait := fun rs => hd None rs |}.
  - reflexivity.
  - intros [|r rs] e H; [destruct H | reflexivity].
  - intros [|x rs] r H; [discriminate H | reflexivity].
  - reflexivity.
  - intros [|r rs] e H; simpl in H; [discriminate H | left; exact H].
Defined.

(** ** The three tasks *)

(** A goroutine at a [select] that has [<-ctx.Done()] among its cases:
    it has not yet looked at the cases ([Arriving]); it found none ready and
    blocked ([Parked]); or it was blocked when the scope was cancelled, which
    commits it to the [<-ctx.Done()] case ([Woken]). *)
Inductive sel : Type := Arriving | Parked | Woken.

(** The reader, lines 45-82. *)
Inductive reader_state : Type :=
| RRecv (started : bool)
    (* line 48, in [stream.Recv()] *)
| RSendStart (sr : StartConsumeRequest) (s : sel)
    (* lines 64-68, [started] is true *)
| RSendConfirm (c : Confirmation) (s : sel)
    (* lines 73-77, [started] is true *)
| RDone (r : result).

(** The writer, lines 84-99. *)
Inductive writer_state : Type :=
| WSelect (s : sel)
    (* lines 86-97 *)
| WSend (m : Message)
    (* line 88, in [stream.Send(m)] *)
| WDone (r : result).

Inductive context_name : Type := stream_context | group_context.
Inductive channel : Type := forClient | confirmRequest | startRequest.

(** The arguments of one call of [HandleConsume]. *)
Record HandleConsume_call : Type := {
  arg_ctx : context_name;
  arg_conf : consumerConfig;
  arg_forClient : channel;
  arg_confirmRequest : channel
}.

(** The handler invoker, lines 101-113. *)
Inductive invoker_state : Type :=
| ISelect (s : sel)
    (* lines 103-110 *)
| IHandle (call : HandleConsume_call)
    (* line 112, in [HandleConsume] *)
| IDone (r : result).

(** [Consume] itself, lines 115-123. *)
Inductive main_state : Type :=
| MWait
    (* line 115, in [g.Wait()] *)
| MErr1
    (* line 119, about to read [sCtx.Err()] *)
| MErr2
    (* line 122, about to read [sCtx.Err()] again *)
| MReturned (r : result).

(** Lines 48-80: what the reader does with what [stream.Recv()] returned. *)
Definition reader_Recv (started : bool) (r : ConsumerRequest + error)
  : reader_state :=
  match r with
  | inr err =>
      if error_eqb err io_EOF then RDone None
      else if HasSuffix (Error err) "context canceled" then RDone None
      else RDone (Some err)
  | inl msg =>
      match GetStartRequest msg with
      | Some sr =>
          if started then RDone (Some errStartedTwice)
          else RSendStart sr Arriving
      | None =>
          match GetConfirmation msg with
          | Some c =>
              if negb started then RDone (Some errInvalidConfirm)
              else RSendConfirm c Arriving
          | None => RDone (Some errInvalidRequest)
          end
      end
  end.

(** Lines 88-94: what the writer does with what [stream.Send(m)] returned. *)
Definition writer_Send (r : result) : writer_state :=
  match r with
  | Some err =>
      if HasSuffix (Error err) "context canceled" then WDone None
      else WDone (Some err)
  | None => WSelect Arriving
  end.

(** Lines 102-107 and 112: the call the invoker makes for a start request. *)
Definition invoker_conf (sr : StartConsumeRequest) : consumerConfig :=
  {| consumer := sr_Consumer sr;
     topic := sr_Topic sr;
     offset := sr_InitialOffset sr |}.

Definition invoker_call (sr : StartConsumeRequest) : HandleConsume_call :=
  {| arg_ctx := group_context;
     arg_conf := invoker_conf sr;
     arg_forClient := forClient;
     arg_confirmRequest := confirmRequest |}.

(** Lines 115-117, 119-121 and 122, one read of [sCtx.Err()] each. *)
Definition after_Wait (w : result) : main_state :=
  match w with
  | Some err => MReturned (Some err)
  | None => MErr1
  end.

Definition after_Err1 (e1 : result) : main_state :=
  match e1 with
  | Some err =>
      if error_eqb err context_Canceled
      then MReturned (Some (status_Error Canceled (Error err)))
      else MErr2
  | None => MErr2
  end.

Definition after_Err2 (e2 : result) : main_state := MReturned e2.


(** ** One session *)

(** The state of one call of [Consume]: where each goroutine stands, the
    values the tasks have returned to the group (in the order of their
    return), [sCtx.Err()], and a record of what has crossed the bridge:
    the envelopes [stream.Recv()] has returned, the calls of [HandleConsume],
    the confirmations the handler has taken from [confirmRequest], the
    messages the writer has taken from [forClient], and those for which
    [stream.Send] has returned nil. *)
Record state : Type := mkState {
  reader : reader_state;
  writer : writer_state;
  invoker : invoker_state;
  main : main_state;
  returns : list result;
  sCtx_Err : result;
  received : list ConsumerRequest;
  calls : list HandleConsume_call;
  confirmed : list Confirmation;
  handed : list Message;
  wire : list Message
}.

(** Lines 37-43 and the three [g.Go]: every goroutine at its first
    statement. *)
Definition init : state :=
  {| reader := RRecv false;
     writer := WSelect Arriving;
     invoker := ISelect Arriving;
     main := MWait;
     returns := [];
     sCtx_Err := None;
     received := [];
     calls := [];
     confirmed := [];
     handed := [];
     wire := [] |}.

Inductive task : Type := Reader | Writer | Invoker.

(** The two causes [sCtx.Err()] can report. *)
Inductive cause : Type := cancelled | deadline.

Definition cause_error (c : cause) : error :=
  match c with
  | cancelled => context_Canceled
  | deadline => context_DeadlineExceeded
  end.

(** What can happen next in a session: a call into the environment returns,
    a goroutine takes a step at its [select], two goroutines meet on a
    channel, the stream's context ends. *)
Inductive event : Type :=
| Recv (r : ConsumerRequest + error)
    (* [stream.Recv()] returns to the reader *)
| Park (t : task)
    (* [t] finds no case of its [select] ready and blocks *)
| TakeDone (t : task)
    (* [t] proceeds with the case [<-ctx.Done()] and returns nil *)
| StartHandoff
    (* the reader's send on [startRequest] meets the invoker's receive *)
| HandlerTakes
    (* the handler receives from [confirmRequest] what the reader sends *)
| HandlerGives (m : Message)
    (* the handler sends [m] on [forClient] and the writer receives it *)
| SendReturns (r : result)
    (* [stream.Send(m)] returns to the writer *)
| HandlerReturns (r : result)
    (* [HandleConsume] returns to the invoker *)
| Cancel (c : cause)
    (* the stream's context ends *)
| WaitReturns
    (* [g.Wait()] returns to [Consume] *)
| ReadErr1
    (* line 119 *)
| ReadErr2.
    (* line 122 *)

Definition reader_to (st : state) (r : reader_state) : state :=
  {| reader := r;
     writer := writer st;
     invoker := invoker st;
     main := main st;
     returns :=
       match r with
       | RDone x => returns st ++ [x]
       | _ => returns st
       end;
     sCtx_Err := sCtx_Err st;
     received := received st;
     calls := calls st;
     confirmed := confirmed st;
     handed := handed st;
     wire := wire st |}.

Definition writer_to (st : state) (w : writer_state) : state :=
  {| reader := reader st;
     writer := w;
     invoker := invoker st;
     main := main st;
     returns :=
       match w with
       | WDone x => returns st ++ [x]
       | _ => returns st
       end;
     sCtx_Err := sCtx_Err st;
     received := received st;
     calls := calls st;
     confirmed := confirmed st;
     handed := handed st;
     wire := wire st |}.

Definition invoker_to (st : state) (i : invoker_state) : state :=
  {| reader := reader st;
     writer := writer st;
     invoker := i;
     main := main st;
     returns :=
       match i with
       | IDone x => returns st ++ [x]
       | _ => returns st
       end;
     sCtx_Err := sCtx_Err st;
     received := received st;
     calls :=
       match i with
       | IHandle call => calls st ++ [call]
       | _ => calls st
       end;
     confirmed := confirmed st;
     handed := handed st;
     wire := wire st |}.

Definition main_to (st : state) (m : main_state) : state :=
  {| reader := reader st;
     writer := writer st;
     invoker := invoker st;
     main := m;
     returns := returns st;
     sCtx_Err := sCtx_Err st;
     received := received st;
     calls := calls st;
     confirmed := confirmed st;
     handed := handed st;
     wire := wire st |}.

Definition log_received (st : state) (r : ConsumerRequest + error) : state :=
  {| reader := reader st;
     writer := writer st;
     invoker := invoker st;
     main := main st;
     returns := returns st;
     sCtx_Err := sCtx_Err st;
     received :=
       match r with
       | inl msg => received st ++ [msg]
       | inr _ => received st
       end;
     calls := calls st;
     confirmed := confirmed st;
     handed := handed st;
     wire := wire st |}.

Definition log_confirmed (st : state) (c : Confirmation) : state :=
  {| reader := reader st;
     writer := writer st;
     invoker := invoker st;
     main := main st;
     returns := returns st;
     sCtx_Err := sCtx_Err st;
     received := received st;
     calls := calls st;
     confirmed := confirmed st ++ [c];
     handed := handed st;
     wire := wire st |}.

Definition log_handed (st : state) (m : Message) : state :=
  {| reader := reader st;
     writer := writer st;
     invoker := invoker st;
     main := main st;
     returns := returns st;
     sCtx_Err := sCtx_Err st;
     received := received st;
     calls := calls st;
     confirmed := confirmed st;
     handed := handed st ++ [m];
     wire := wire st |}.

Definition log_wire (st : state) (m : Message) (r : result) : state :=
  {| reader := reader st;
     writer := writer st;
     invoker := invoker st;
     main := main st;
     returns := returns st;
     sCtx_Err := sCtx_Err st;
     received := received st;
     calls := calls st;
     confirmed := confirmed st;
     handed := handed st;
     wire :=
       match r with
       | None => wire st ++ [m]
       | Some _ => wire st
       end |}.

Definition end_context (st : state) (c : cause) : state :=
  {| reader := reader st;
     writer := writer st;
     invoker := invoker st;
     main := main st;
     returns := returns st;
     sCtx_Err := Some (cause_error c);
     received := received st;
     calls := calls st;
     confirmed := confirmed st;
     handed := handed st;
     wire := wire st |}.

Definition wake_sel (s : sel) : sel :=
  match s with
  | Parked => Woken
  | _ => s
  end.

Definition wake_reader (r : reader_state) : reader_state :=
  match r with
  | RSendStart sr s => RSendStart sr (wake_sel s)
  | RSendConfirm c s => RSendConfirm c (wake_sel s)
  | _ => r
  end.

Definition wake_writer (w : writer_state) : writer_state :=
  match w with
  | WSelect s => WSelect (wake_sel s)
  | _ => w
  end.

Definition wake_invoker (i : invoker_state) : invoker_state :=
  match i with
  | ISelect s => ISelect (wake_sel s)
  | _ => i
  end.

Definition wake (st : state) : state :=
  {| reader := wake_reader (reader st);
     writer := wake_writer (writer st);
     invoker := wake_invoker (invoker st);
     main := main st;
     returns := returns st;
     sCtx_Err := sCtx_Err st;
     received := received st;
     calls := calls st;
     confirmed := confirmed st;
     handed := handed st;
     wire := wire st |}.

Definition handler_running (st : state) : bool :=
  match invoker st with
  | IHandle _ => true
  | _ => false
  end.

Definition all_returned (st : state) : bool :=
  match reader st, writer st, invoker st with
  | RDone _, WDone _, IDone _ => true
  | _, _, _ => false
  end.

Section Session.

Variable G : Group.

(** [ctx.Done()] is closed: the group has cancelled the scope, or the
    stream's context, from which the scope derives, has ended. *)
Definition ctx_done (st : state) : bool :=
  is_error (sCtx_Err st) || group_cancels G (returns st).

(** Closing [ctx.Done()] wakes every goroutine blocked at a [select]. *)
Definition settle (st : state) : state :=
  if ctx_done st then wake st else st.

(** The case [<-ctx.Done()] can be taken by a goroutine that was woken for
    it, or that arrives at its [select] with the scope already cancelled. *)
Definition done_ready (st : state) (s : sel) : bool :=
  match s with
  | Woken => true
  | Arriving => ctx_done st
  | Parked => false
  end.

(** The other side of a channel can be met by a goroutine arriving at its
    [select] or blocked in it, not by one already woken for another case. *)
Definition open (s : sel) : bool :=
  match s with
  | Woken => false
  | _ => true
  end.

Definition park (st : state) (t : task) : option state :=
  if ctx_done st then None else
  match t with
  | Reader =>
      match reader st with
      | RSendStart sr Arriving =>
          match invoker st with
          | ISelect Parked => None
          | _ => Some (reader_to st (RSendStart sr Parked))
          end
      | RSendConfirm c Arriving => Some (reader_to st (RSendConfirm c Parked))
      | _ => None
      end
  | Writer =>
      match writer st with
      | WSelect Arriving => Some (writer_to st (WSelect Parked))
      | _ => None
      end
  | Invoker =>
      match invoker st with
      | ISelect Arriving =>
          match reader st with
          | RSendStart _ Parked => None
          | _ => Some (invoker_to st (ISelect Parked))
          end
      | _ => None
      end
  end.

Definition take_done (st : state) (t : task) : option state :=
  match t with
  | Reader =>
      match reader st with
      | RSendStart _ s | RSendConfirm _ s =>
          if done_ready st s then Some (reader_to st (RDone None)) else None
      | _ => None
      end
  | Writer =>
      match writer st with
      | WSelect s =>
          if done_ready st s then Some (writer_to st (WDone None)) else None
      | _ => None
      end
  | Invoker =>
      match invoker st with
      | ISelect s =>
          if done_ready st s then Some (invoker_to st (IDone None)) else None
      | _ => None
      end
  end.

(** A send and a receive on an unbuffered channel meet when one side is
    blocked and the other arrives. *)
Definition meet (s1 s2 : sel) : bool :=
  match s1, s2 with
  | Arriving, Parked | Parked, Arriving => true
  | _, _ => false
  end.

Definition pre_step (st : state) (ev : event) : option state :=
  match ev with
  | Recv r =>
      match reader st with
      | RRecv started =>
          Some (log_received (reader_to st (reader_Recv started r)) r)
      | _ => None
      end
  | Park t => park st t
  | TakeDone t => take_done st t
  | StartHandoff =>
      match reader st, invoker st with
      | RSendStart sr s1, ISelect s2 =>
          if meet s1 s2
          then Some (invoker_to (reader_to st (RRecv true))
                                (IHandle (invoker_call sr)))
          else None
      | _, _ => None
      end
  | HandlerTakes =>
      match reader st with
      | RSendConfirm c s =>
          if open s && handler_running st
          then Some (log_confirmed (reader_to st (RRecv true)) c)
          else None
      | _ => None
      end
  | HandlerGives m =>
      match writer st with
      | WSelect s =>
          if open s && handler_running st
          then Some (log_handed (writer_to st (WSend m)) m)
          else None
      | _ => None
      end
  | SendReturns r =>
      match writer st with
      | WSend m => Some (log_wire (writer_to st (writer_Send r)) m r)
      | _ => None
      end
  | HandlerReturns r =>
      match invoker st with
      | IHandle _ => Some (invoker_to st (IDone r))
      | _ => None
      end
  | Cancel c =>
      match sCtx_Err st with
      | None => Some (end_context st c)
      | Some _ => None
      end
  | WaitReturns =>
      match main st with
      | MWait =>
          if all_returned st
          then Some (main_to st (after_Wait (group_Wait G (returns st))))
          else None
      | _ => None
      end
  | ReadErr1 =>
      match main st with
      | MErr1 => Some (main_to st (after_Err1 (sCtx_Err st)))
      | _ => None
      end
  | ReadErr2 =>
      match main st with
      | MErr2 => Some (main_to st (after_Err2 (sCtx_Err st)))
      | _ => None
      end
  end.

(** One step of the session; [None] when the event cannot happen in [st]. *)
Definition step (st : state) (ev : event) : option state :=
  option_map settle (pre_step st ev).

Fixpoint run (st : state) (evs : list event) : option state :=
  match evs with
  | [] => Some st
  | ev :: evs' =>
      match step st ev with
      | Some st' => run st' evs'
      | None => None
      end
  end.

End Session.

Arguments settle : simpl never.
Arguments ctx_done : simpl never.


(** ** Properties of a session *)

Definition is_some {A : Type} (o : option A) : bool :=
  match o with
  | Some _ => true
  | None => false
  end.

(** The first start request among the envelopes received so far. *)
Fixpoint first_start (l : list ConsumerRequest) : option StartConsumeRequest :=
  match l with
  | [] => None
  | msg :: l' =>
      match GetStartRequest msg with
      | Some sr => Some sr
      | None => first_start l'
      end
  end.

Definition parked_sel (s : sel) : bool :=
  match s with
  | Parked => true
  | _ => false
  end.

Definition someone_parked (st : state) : bool :=
  match reader st with
  | RSendStart _ s | RSendConfirm _ s => parked_sel s
  | _ => false
  end
  || match writer st with
     | WSelect s => parked_sel s
     | _ => false
     end
  || match invoker st with
     | ISelect s => parked_sel s
     | _ => false
     end.

(** The handshake: what the reader knows of it, what the invoker did with
    it, and that nothing flows through the handler's channels before it. *)
Record handshake (st : state) : Prop := {
  hs_reader :
    match reader st with
    | RRecv b => b = is_some (first_start (received st))
    | RSendStart sr _ =>
        first_start (received st) = Some sr /\ calls st = []
    | RSendConfirm _ _ => first_start (received st) <> None
    | RDone _ => True
    end;
  hs_calls :
    calls st = [] \/
    exists sr, first_start (received st) = Some sr /\
               calls st = [invoker_call sr];
  hs_invoker :
    match invoker st with
    | ISelect _ => calls st = []
    | IHandle call => calls st = [call]
    | IDone r => calls st = [] -> r = None
    end;
  hs_quiet :
    calls st = [] -> handed st = [] /\ confirmed st = [];
  hs_writer :
    handed st = [] ->
    match writer st with
    | WSelect _ | WDone None => True
    | _ => False
    end
}.

(** [sCtx.Err()] is nil, [context.Canceled] or
    [context.DeadlineExceeded]. *)
Definition context_error (r : result) : Prop :=
  r = None \/ exists c, r = Some (cause_error c).

(** Every value the group holds was returned by one of the three tasks. *)
Definition returns_origin (st : state) : Prop :=
  forall r, In r (returns st) ->
            reader st = RDone r \/ writer st = WDone r \/ invoker st = IDone r.

(** The messages taken from [forClient] are those [stream.Send] has
    accepted, followed by the one it is being called with, if any. *)
Definition outbound (st : state) : Prop :=
  match writer st with
  | WSelect _ => handed st = wire st
  | WSend m => handed st = wire st ++ [m]
  | WDone _ => handed st = wire st \/ exists m, handed st = wire st ++ [m]
  end.

Section Properties.

Variable G : Group.

(** [Consume] is past [g.Wait()] only when the three tasks have returned,
    and what it returns then is what lines 115-123 make of the group's
    report and of [sCtx.Err()]. *)
Definition exit_rule (st : state) : Prop :=
  context_error (sCtx_Err st) /\
  (main st <> MWait -> all_returned st = true) /\
  match main st with
  | MWait => True
  | MErr1 | MErr2 => group_Wait G (returns st) = None
  | MReturned r =>
      match group_Wait G (returns st) with
      | Some e => r = Some e
      | None =>
          r = None \/
          exists c, sCtx_Err st = Some (cause_error c) /\
                    (r = Some (cause_error c) \/
                     (c = cancelled /\
                      r = Some (status_Error Canceled "context canceled")))
      end
  end.

(** The scope is cancelled, nobody is blocked on a channel and no handler
    is running. *)
Definition winding_down (st : state) : Prop :=
  ctx_done G st = true /\ someone_parked st = false /\
  handler_running st = false.

Definition at_select_reader (r : reader_state) : bool :=
  match r with
  | RSendStart _ _ | RSendConfirm _ _ => true
  | _ => false
  end.

Definition at_select_writer (w : writer_state) : bool :=
  match w with
  | WSelect _ => true
  | _ => false
  end.

Definition at_select_invoker (i : invoker_state) : bool :=
  match i with
  | ISelect _ => true
  | _ => false
  end.

(** A task that stands at a [select] in [st] can leave it only by
    returning nil, and is able to. *)
Definition only_nil (st : state) : Prop :=
  (forall ev st', step G st ev = Some st' ->
     (at_select_reader (reader st) = true ->
      reader st' = reader st \/ reader st' = RDone None) /\
     (at_select_writer (writer st) = true ->
      writer st' = writer st \/ writer st' = WDone None) /\
     (at_select_invoker (invoker st) = true ->
      invoker st' = invoker st \/ invoker st' = IDone None)) /\
  (at_select_reader (reader st) = true ->
   exists st', step G st (TakeDone Reader) = Some st' /\
               reader st' = RDone None) /\
  (at_select_writer (writer st) = true ->
   exists st', step G st (TakeDone Writer) = Some st' /\
               writer st' = WDone None) /\
  (at_select_invoker (invoker st) = true ->
   exists st', step G st (TakeDone Invoker) = Some st' /\
               invoker st' = IDone None).

End Properties.

(** ** Observations on a run *)

(** The messages the handler has sent on [forClient], in the order of its
    sends. *)
Fixpoint handler_sent (evs : list event) : list Message :=
  match evs with
  | [] => []
  | HandlerGives m :: evs' => m :: handler_sent evs'
  | _ :: evs' => handler_sent evs'
  end.

(** The error an event brings into the bridge from outside: from the
    stream through [Recv] or [Send], or from the handler. *)
Definition supplied (ev : event) : result :=
  match ev with
  | Recv (inr err) => Some err
  | SendReturns (Some err) => Some err
  | HandlerReturns (Some err) => Some err
  | _ => None
  end.

(** An upper bound on the number of steps left to a session whose reader
    has returned and whose scope is cancelled. *)
Definition budget (st : state) : nat :=
  match sCtx_Err st with
  | None => 1
  | Some _ => 0
  end
  + match writer st with
    | WSelect _ => 1
    | WSend _ => 2
    | WDone _ => 0
    end
  + match invoker st with
    | ISelect _ => 1
    | _ => 0
    end
  + match main st with
    | MWait => 3
    | MErr1 => 2
    | MErr2 => 1
    | MReturned _ => 0
    end.

Definition returned (st : state) : Prop :=
  exists r, main st = MReturned r.

(** ** Sample sessions *)

Definition orders : StartConsumeRequest :=
  {| sr_Topic := "orders"; sr_Consumer := "c1"; sr_InitialOffset := 1%Z |}.

Definition start_orders : ConsumerRequest :=
  {| GetStartRequest := Some orders; GetConfirmation := None |}.

Definition confirm (id : string) : ConsumerRequest :=
  {| GetStartRequest := None; GetConfirmation := Some {| MsgID := id |} |}.

Definition message (id : string) : Message :=
  {| msg_Id := id; msg_Data := "payload" |}.

(** The handshake: the invoker waits, the start request arrives and is
    handed over. *)
Definition handshake_events : list event :=
  [Park Invoker; Recv (inl start_orders); StartHandoff].

(** Three messages sent by the handler while two confirmations come in. *)
Definition traffic_events : list event :=
  handshake_events ++
  [HandlerGives (message "1"); Recv (inl (confirm "1")); SendReturns None;
   HandlerTakes; HandlerGives (message "2"); SendReturns None;
   Recv (inl (confirm "2")); HandlerGives (message "3"); HandlerTakes;
   SendReturns None].

(** One message, one confirmation, then the client closes the stream. *)
Definition clean_close_events : list event :=
  handshake_events ++
  [Park Writer; HandlerGives (message "1"); SendReturns None;
   Recv (inl (confirm "1")); HandlerTakes; Recv (inr io_EOF);
   TakeDone Writer; HandlerReturns None; WaitReturns; ReadErr1; ReadErr2].

(** A send fails, the handler winds down without error, the client closes
    the stream. *)
Definition send_failure_events : list event :=
  handshake_events ++
  [HandlerGives (message "1");
   SendReturns (Some (other_error "transport is closing"));
   Recv (inr io_EOF); HandlerReturns None; WaitReturns].


(** The stream's context is cancelled before any envelope has arrived; the
    pending [Recv] then fails with a transport error, or delivers a
    confirmation that had already arrived. *)
Definition cancelled_recv_fails_events : list event :=
  [Recv (inr (other_error "transport is closing"));
   TakeDone Writer; TakeDone Invoker; WaitReturns].

Definition cancelled_recv_confirm_events : list event :=
  [Recv (inl (confirm "1")); TakeDone Writer; TakeDone Invoker; WaitReturns].

Definition cancelled_clean_events : list event :=
  [Recv (inr (status_Error Canceled "context canceled"));
   TakeDone Writer; TakeDone Invoker; WaitReturns; ReadErr1].

(** The state a run from [init] ends in ([init] when the run is not
    possible). *)
Definition after (G : Group) (evs : list event) : state :=
  match run G init evs with
  | Some st => st
  | None => init
  end.

(** ** The inbound side *)

(** The confirmation the reader forwards for an envelope, if any: the start
    request is looked at first (line 59), so an envelope that carries both
    forwards nothing. *)
Definition forwarded (msg : ConsumerRequest) : option Confirmation :=
  match GetStartRequest msg with
  | Some _ => None
  | None => GetConfirmation msg
  end.

(** The confirmations carried by the envelopes received, in their order. *)
Fixpoint confirmations (l : list ConsumerRequest) : list Confirmation :=
  match l with
  | [] => []
  | msg :: l' =>
      match forwarded msg with
      | Some c => c :: confirmations l'
      | None => confirmations l'
      end
  end.

(** The confirmations received are those the handler has taken, followed by
    the one the reader is offering or has given up on, if any. *)
Definition inbound (st : state) : Prop :=
  match reader st with
  | RRecv _ | RSendStart _ _ => confirmations (received st) = confirmed st
  | RSendConfirm c _ => confirmations (received st) = confirmed st ++ [c]
  | RDone _ =>
      confirmations (received st) = confirmed st \/
      exists c, confirmations (received st) = confirmed st ++ [c]
  end.

(** What lines 119-122 return when both reads of [sCtx.Err()] see [e]. *)
Definition context_exit (e : error) : error :=
  if error_eqb e context_Canceled
  then status_Error Canceled (Error e)
  else e.

Section Ended.

Variable G : Group.

(** The stream's context ended with [e] while [Consume] was still in
    [g.Wait()]: what [Consume] does from there. *)
Definition ended_early (e : error) (st : state) : Prop :=
  sCtx_Err st = Some e /\
  match main st with
  | MWait => True
  | MErr1 => group_Wait G (returns st) = None
  | MErr2 =>
      group_Wait G (returns st) = None /\
      error_eqb e context_Canceled = false
  | MReturned r =>
      match group_Wait G (returns st) with
      | Some x => r = Some x
      | None => r = Some (context_exit e)
      end
  end.

End Ended.

(** * Process start-up (main.go) *)

(** lines 23-26 *)
Definition consumeEndpoint : string := "consume".
Definition publishEndpoint : string := "publish".

(** [strings.Split(s, sep)] for a separator of one byte, the only use the
    program makes of it: the pieces of [s] between the separators, one more
    than there are separators. *)
Fixpoint strings_Split (s : string) (sep : Ascii.ascii) : list string :=
  match s with
  | EmptyString => [EmptyString]
  | String c s' =>
      if Ascii.eqb c sep
      then EmptyString :: strings_Split s' sep
      else
        match strings_Split s' sep with
        | piece :: rest => String c piece :: rest
        | [] => [String c EmptyString]
        end
  end.

Definition comma : Ascii.ascii := ","%char.

(** A [map[string]bool] as the program reads it, by indexing: a key that is
    absent reads [false]. *)
Definition bool_map : Type := string -> bool.

(** [make(map[string]bool, 2)] *)
Definition make_map : bool_map := fun _ => false.

(** [m[key] = value] *)
Definition map_set (m : bool_map) (key : string) (value : bool) : bool_map :=
  fun k => if String.eqb k key then value else m k.

Definition newline : string := String (Ascii.ascii_of_nat 10) EmptyString.

(** The two messages [parseEndpoints] logs. *)
Definition enabled_line (endpoint : string) : string :=
  (endpoint ++ " endpoint enabled" ++ newline)%string.

Definition invalid_line (endpoint : string) : string :=
  ("invalid expose-endpoint flag: " ++ endpoint)%string.

(** The [switch] of line 175. *)
Definition known_endpoint (endpoint : string) : bool :=
  String.eqb endpoint consumeEndpoint || String.eqb endpoint publishEndpoint.

(** The loop of lines 174-182 over the pieces still to visit: the lines
    logged, and the map, or [None] when [log.Fatalf] has ended the
    process. *)
Fixpoint parseEndpoints_range (pieces : list string) (enabled : bool_map)
    (logged : list string) : list string * option bool_map :=
  match pieces with
  | [] => (logged, Some enabled)
  | endpoint :: rest =>
      if known_endpoint endpoint
      then parseEndpoints_range rest (map_set enabled endpoint true)
             (logged ++ [enabled_line endpoint])
      else (logged ++ [invalid_line endpoint], None)
  end.

(** lines 171-185 *)
Definition parseEndpoints (endpoints : string)
  : list string * option bool_map :=
  parseEndpoints_range (strings_Split endpoints comma) make_map [].

(** The value of the [endpoints] option when neither the flag nor the
    environment sets it, line 46. *)
Definition default_endpoints : string :=
  (consumeEndpoint ++ "," ++ publishEndpoint)%string.

(** ** Handlers and the server *)

Inductive service : Type := MessageSource | MessageSink.

(** What the program does to its handlers, to the network and to the gRPC
    server, in the order in which it does it (its log output is left out
    here). *)
Inductive effect (handler : Type) : Type :=
| Connect (h : handler)
    (* a NATS streaming handler has been obtained from its constructor *)
| Close (h : handler)
    (* [h.Close()] *)
| Listen (port : Z)
    (* [net.Listen("tcp", ":port")] *)
| Register (svc : service) (h : handler)
    (* [proto.RegisterMessageSourceServer] or [...SinkServer] *)
| Serve
    (* [grpcServer.Serve(lis)] is started *)
| Stop
    (* [grpcServer.Stop()] *)
| CloseListener.
    (* [lis.Close()] *)

Arguments Connect {handler} h.
Arguments Close {handler} h.
Arguments Listen {handler} port.
Arguments Register {handler} svc h.
Arguments Serve {handler}.
Arguments Stop {handler}.
Arguments CloseListener {handler}.

(** [errors.Wrap(err, message)]: nil for a nil error, otherwise an error
    whose text is the message, a colon and the text of [err]. *)
Definition errors_Wrap (err : result) (message : string) : result :=
  match err with
  | None => None
  | Some e => Some (other_error (message ++ ": " ++ Error e)%string)
  end.

(** What ends the [select] of lines 213-218. *)
Inductive wake_up : Type :=
| Serve_returned (err : result)
| Signalled.

Section Server.

Variable handler : Type.

(** [cHandler] and [pHandler], nil or not. *)
Record handlers : Type := {
  cHandler : option handler;
  pHandler : option handler
}.

(** lines 201-206 *)
Definition registrations (hs : handlers) : list (effect handler) :=
  match cHandler hs with
  | Some h => [Register MessageSource h]
  | None => []
  end ++
  match pHandler hs with
  | Some h => [Register MessageSink h]
  | None => []
  end.

(** lines 186-219: [listen] is what [net.Listen] reports and [w] what ends
    the [select]; the two deferred calls run in the reverse order of their
    [defer]. *)
Definition listenAndServe (hs : handlers) (port : Z) (listen : result)
    (w : wake_up) : list (effect handler) * result :=
  match listen with
  | Some err => ([Listen port], errors_Wrap (Some err) "failed to listen")
  | None =>
      ([Listen port] ++ registrations hs ++ [Serve; Stop; CloseListener],
       match w with
       | Serve_returned err => errors_Wrap err "failed to serve grpc"
       | Signalled => None
       end)
  end.

End Server.

Arguments cHandler {handler} h.
Arguments pHandler {handler} h.

(** ** The back ends *)

Section Backends.

(** [sarama.KafkaVersion] and [sarama.ParseKafkaVersion] belong to an
    imported package. *)
Variable KafkaVersion : Type.
Variable ParseKafkaVersion : string -> KafkaVersion + error.

(** The handler values [main] creates. *)
Inductive handler : Type :=
| kafkaConsumeHandler (brokers : list string) (version : option KafkaVersion)
| kafkaProduceHandler (brokers : list string) (version : option KafkaVersion)
| natsConsumeHandler
| natsProduceHandler
| memHandler.

(** The action of a command: what it does, and the two handlers it leaves
    in [cHandler] and [pHandler], or [None] when [log.Fatalf] has ended the
    process. *)
Definition action_result : Type :=
  list (effect handler) * option (handlers handler).

(** lines 68-94 *)
Definition kafka_action (enabled : bool_map) (brokerString : string)
    (kafkaVersion : string) : action_result :=
  let brokers := strings_Split brokerString comma in
  let parsed :=
    if String.eqb kafkaVersion ""
    then Some None
    else
      match ParseKafkaVersion kafkaVersion with
      | inl kv => Some (Some kv)
      | inr _ => None
      end in
  match parsed with
  | None => ([], None)
  | Some version =>
      ([],
       Some {| cHandler :=
                 if enabled consumeEndpoint
                 then Some (kafkaConsumeHandler brokers version)
                 else None;
               pHandler :=
                 if enabled publishEndpoint
                 then Some (kafkaProduceHandler brokers version)
                 else None |})
  end.

(** lines 128-147: [consume_err] and [produce_err] are what the two
    constructors report.  A [defer] of the action runs when the action
    returns, the later one first; [log.Fatalf] ends the process without
    running any. *)
Definition nats_action (enabled : bool_map) (consume_err produce_err : result)
  : action_result :=
  let consume_part :=
    if enabled consumeEndpoint
    then
      match consume_err with
      | Some _ => None
      | None => Some ([Connect natsConsumeHandler],
                      Some natsConsumeHandler,
                      [Close natsConsumeHandler])
      end
    else Some ([], None, []) in
  match consume_part with
  | None => ([], None)
  | Some (done1, c, deferred1) =>
      let produce_part :=
        if enabled publishEndpoint
        then
          match produce_err with
          | Some _ => None
          | None => Some ([Connect natsProduceHandler],
                          Some natsProduceHandler,
                          [Close natsProduceHandler])
          end
        else Some ([], None, []) in
      match produce_part with
      | None => (done1, None)
      | Some (done2, p, deferred2) =>
          (done1 ++ done2 ++ deferred2 ++ deferred1,
           Some {| cHandler := c; pHandler := p |})
      end
  end.

(** lines 151-162 *)
Definition mem_action (enabled : bool_map) : action_result :=
  let h := memHandler in
  ([],
   Some {| cHandler := if enabled consumeEndpoint then Some h else None;
           pHandler := if enabled publishEndpoint then Some h else None |}).

(** The command line as the option parser hands it over. *)
Inductive command : Type :=
| kafka (brokers : string) (version : string)
| nats_streaming
| mem.

(** What the outside world answers. *)
Record world : Type := {
  nats_consume_err : result;
  nats_produce_err : result;
  listen_err : result;
  serve_end : wake_up
}.

Definition run_action (enabled : bool_map) (cmd : command) (w : world)
  : action_result :=
  match cmd with
  | kafka brokers version => kafka_action enabled brokers version
  | nats_streaming =>
      nats_action enabled (nats_consume_err w) (nats_produce_err w)
  | mem => mem_action enabled
  end.

(** lines 28-169, for a command line that names a back end: the [Before]
    hook (line 52), the command's action, then [listenAndServe] (line 168).
    The second component is what [listenAndServe] returned, when the
    process got that far. *)
Definition main_effects (port : Z) (endpoints : string) (cmd : command)
    (w : world) : list (effect handler) * option result :=
  match snd (parseEndpoints endpoints) with
  | None => ([], None)
  | Some enabled =>
      match run_action enabled cmd w with
      | (done, None) => (done, None)
      | (done, Some hs) =>
          let (served, err) :=
            listenAndServe handler hs port (listen_err w) (serve_end w) in
          (done ++ served, Some err)
      end
  end.

End Backends.


(** ** Vocabulary for the start-up properties *)

(** The two names the [switch] of line 175 accepts. *)
Definition endpoint_name (endpoint : string) : Prop :=
  endpoint = consumeEndpoint \/ endpoint = publishEndpoint.

(** The pieces written one after the other with the separator between
    them, as one writes the value of the [endpoints] option. *)
Fixpoint joined (pieces : list string) (sep : Ascii.ascii) : string :=
  match pieces with
  | [] => EmptyString
  | piece :: rest =>
      match rest with
      | [] => piece
      | _ :: _ => (piece ++ String sep (joined rest sep))%string
      end
  end.

(** Whether the byte occurs in the string. *)
Fixpoint has_byte (s : string) (b : Ascii.ascii) : bool :=
  match s with
  | EmptyString => false
  | String c s' => Ascii.eqb c b || has_byte s' b
  end.

(** What an action of [main] does is done to NATS handlers only: it
    connects them, and closes them on its way out. *)
Definition action_effect {handler : Type} (e : effect handler) : Prop :=
  match e with
  | Connect _ | Close _ => True
  | _ => False
  end.

(** A world in which nothing fails and the process is ended by a signal,
    and one in which the second NATS constructor fails. *)
Definition calm_world : world :=
  {| nats_consume_err := None;
     nats_produce_err := None;
     listen_err := None;
     serve_end := Signalled |}.

Definition producer_down_world : world :=
  {| nats_consume_err := None;
     nats_produce_err := Some (other_error "nats: no servers available");
     listen_err := None;
     serve_end := Signalled |}.
(** ** Reading steps *)

Ltac break_hyp H :=
  match type of H with
  | context [match ?x with _ => _ end] => destruct x eqn:?
  | context [if ?x then _ else _] => destruct x eqn:?
  end.

(** Splits [H : step G st ev = Some st'] into the cases of [pre_step],
    leaving [st'] as [settle G _]. *)
Ltac step_cases H :=
  let Hpre := fresh "Hpre" in
  unfold step in H;
  match type of H with
  | option_map _ ?p = Some _ =>
      destruct p eqn:Hpre; [simpl in H; injection H as H | discriminate H]
  end;
  match type of Hpre with
  | pre_step _ _ ?ev = _ => destruct ev
  end;
  simpl in Hpre; unfold park, take_done in Hpre;
  repeat break_hyp Hpre; try discriminate Hpre;
  injection Hpre as Hpre; subst.

Section SessionFacts.

Variable G : Group.

Lemma settle_main (st : state) : main (settle G st) = main st.
Proof. unfold settle. destruct (ctx_done G st); reflexivity. Qed.

Lemma settle_returns (st : state) : returns (settle G st) = returns st.
Proof. unfold settle. destruct (ctx_done G st); reflexivity. Qed.

Lemma settle_sCtx_Err (st : state) : sCtx_Err (settle G st) = sCtx_Err st.
Proof. unfold settle. destruct (ctx_done G st); reflexivity. Qed.

Lemma settle_received (st : state) : received (settle G st) = received st.
Proof. unfold settle. destruct (ctx_done G st); reflexivity. Qed.

Lemma settle_calls (st : state) : calls (settle G st) = calls st.
Proof. unfold settle. destruct (ctx_done G st); reflexivity. Qed.

Lemma settle_confirmed (st : state) : confirmed (settle G st) = confirmed st.
Proof. unfold settle. destruct (ctx_done G st); reflexivity. Qed.

Lemma settle_handed (st : state) : handed (settle G st) = handed st.
Proof. unfold settle. destruct (ctx_done G st); reflexivity. Qed.

Lemma settle_wire (st : state) : wire (settle G st) = wire st.
Proof. unfold settle. destruct (ctx_done G st); reflexivity. Qed.

Lemma settle_ctx_done (st : state) : ctx_done G (settle G st) = ctx_done G st.
Proof.
  unfold ctx_done. rewrite settle_returns, settle_sCtx_Err. reflexivity.
Qed.

Lemma settle_reader (st : state) :
  reader (settle G st) = reader st \/ reader (settle G st) = wake_reader (reader st).
Proof. unfold settle. destruct (ctx_done G st); [right | left]; reflexivity. Qed.

Lemma settle_writer (st : state) :
  writer (settle G st) = writer st \/ writer (settle G st) = wake_writer (writer st).
Proof. unfold settle. destruct (ctx_done G st); [right | left]; reflexivity. Qed.

Lemma settle_invoker (st : state) :
  invoker (settle G st) = invoker st \/
  invoker (settle G st) = wake_invoker (invoker st).
Proof. unfold settle. destruct (ctx_done G st); [right | left]; reflexivity. Qed.

Lemma settle_reader_RRecv (st : state) (b : bool) :
  reader st = RRecv b -> reader (settle G st) = RRecv b.
Proof. intro H. destruct (settle_reader st) as [E|E]; rewrite E, H; reflexivity. Qed.

Lemma settle_reader_RDone (st : state) (r : result) :
  reader st = RDone r -> reader (settle G st) = RDone r.
Proof. intro H. destruct (settle_reader st) as [E|E]; rewrite E, H; reflexivity. Qed.

Lemma settle_writer_WSend (st : state) (m : Message) :
  writer st = WSend m -> writer (settle G st) = WSend m.
Proof. intro H. destruct (settle_writer st) as [E|E]; rewrite E, H; reflexivity. Qed.

Lemma settle_writer_WDone (st : state) (r : result) :
  writer st = WDone r -> writer (settle G st) = WDone r.
Proof. intro H. destruct (settle_writer st) as [E|E]; rewrite E, H; reflexivity. Qed.

Lemma settle_invoker_IHandle (st : state) (c : HandleConsume_call) :
  invoker st = IHandle c -> invoker (settle G st) = IHandle c.
Proof. intro H. destruct (settle_invoker st) as [E|E]; rewrite E, H; reflexivity. Qed.

Lemma settle_invoker_IDone (st : state) (r : result) :
  invoker st = IDone r -> invoker (settle G st) = IDone r.
Proof. intro H. destruct (settle_invoker st) as [E|E]; rewrite E, H; reflexivity. Qed.

Lemma run_app (st : state) (evs1 evs2 : list event) :
  run G st (evs1 ++ evs2) =
  match run G st evs1 with
  | Some st' => run G st' evs2
  | None => None
  end.
Proof.
  revert st. induction evs1 as [|ev evs1 IH]; intro st; simpl.
  - reflexivity.
  - destruct (step G st ev); [apply IH | reflexivity].
Qed.

(** A property kept by every step is kept by every run. *)
Lemma run_invariant (P : state -> Prop) :
  (forall st st' ev, P st -> step G st ev = Some st' -> P st') ->
  forall evs st st', P st -> run G st evs = Some st' -> P st'.
Proof.
  intros Hstep. induction evs as [|ev evs IH]; simpl; intros st st' HP Hrun.
  - injection Hrun as <-. exact HP.
  - destruct (step G st ev) as [st1|] eqn:E; [|discriminate Hrun].
    exact (IH st1 st' (Hstep st st1 ev HP E) Hrun).
Qed.

(** The values returned to the group only accumulate. *)
Lemma step_returns (st st' : state) (ev : event) :
  step G st ev = Some st' ->
  returns st' = returns st \/ exists r, returns st' = returns st ++ [r].
Proof.
  intro H. step_cases H; rewrite settle_returns; simpl;
    try (left; reflexivity);
    try (right; eexists; reflexivity).
  - destruct (reader_Recv started r);
      [left | left | left | right; eexists]; reflexivity.
  - destruct (writer_Send r);
      [left | left | right; eexists]; reflexivity.
Qed.

End SessionFacts.

(** ** Invariants of a session *)

Lemma first_start_app (l : list ConsumerRequest) (msg : ConsumerRequest) :
  first_start (l ++ [msg]) =
  match first_start l with
  | Some sr => Some sr
  | None => GetStartRequest msg
  end.
Proof.
  induction l as [|x l IH]; simpl.
  - destruct (GetStartRequest msg); reflexivity.
  - destruct (GetStartRequest x); [reflexivity | exact IH].
Qed.

Ltac rewrite_states :=
  repeat match goal with
    | E : reader ?s = _ |- _ => rewrite E in *
    | E : writer ?s = _ |- _ => rewrite E in *
    | E : invoker ?s = _ |- _ => rewrite E in *
    | E : main ?s = _ |- _ => rewrite E in *
    end.

Ltac list_absurd :=
  match goal with
  | H : _ ++ [_] = [] |- _ =>
      apply app_eq_nil in H; destruct H; discriminate
  | H : [] = _ ++ [_] |- _ =>
      symmetry in H; apply app_eq_nil in H; destruct H; discriminate
  end.

Ltac case_on x :=
  let E := fresh "E" in
  destruct x eqn:E; try rewrite E in *; simpl in *.

Ltac break_hyps :=
  repeat match goal with
    | H : _ /\ _ |- _ => destruct H
    | H : exists _, _ |- _ => destruct H
    | H : _ \/ _ |- _ => destruct H
    | H : Some _ = Some _ |- _ => injection H as H; try subst
    end.

Ltac use_eqs :=
  repeat match goal with
    | H : first_start _ = _ |- _ => rewrite H in *; clear H
    | H : calls _ = _ |- _ => rewrite H in *; clear H
    | H : handed _ = _ |- _ => rewrite H in *; clear H
    end.

(** Projections of a state built by the step function. *)
Ltac proj :=
  cbn [reader writer invoker main returns sCtx_Err received calls confirmed
       handed wire reader_to writer_to invoker_to main_to log_received
       log_confirmed log_handed log_wire end_context] in *.

Ltac running :=
  repeat match goal with
    | H : _ && _ = true |- _ => apply andb_prop in H; destruct H
    end;
  unfold handler_running in *;
  repeat match goal with
    | H : match invoker ?s with _ => _ end = true |- _ =>
        case_on (invoker s); try discriminate H
    end.

Ltac finish_inv :=
  running;
  repeat match goal with
    | |- context [wake_reader ?x] => case_on x
    | |- context [wake_writer ?x] => case_on x
    | |- context [wake_invoker ?x] => case_on x
    | |- context [match ?x with _ => _ end] => case_on x
    end;
  try solve [ assumption
            | intuition (subst; simpl in *;
                         try list_absurd; try congruence; eauto)
            | break_hyps; subst; simpl in *; try list_absurd;
              try congruence; eauto;
              solve [ left; assumption
                    | right; eexists; split; eassumption ]
            | break_hyps; use_eqs; subst; simpl in *; try list_absurd;
              try congruence; eauto
            | match goal with
              | |- context [first_start ?l] =>
                  destruct (first_start l); simpl in *; congruence
              end ].

Section Invariants.

Variable G : Group.

Lemma handshake_init : handshake init.
Proof.
  split; simpl; auto. 
Qed.

Lemma handshake_step (st st' : state) (ev : event) :
  handshake st -> step G st ev = Some st' -> handshake st'.
Proof.
  intros [H1 H2 H3 H4 H5] H. step_cases H.
  all: unfold settle; destruct (ctx_done G _); simpl.
  all: rewrite_states.
  all: try match goal with
         | |- context [reader_Recv _ ?r] =>
             unfold reader_Recv;
             destruct r as [msg|err];
             [ case_on (GetStartRequest msg);
               case_on (GetConfirmation msg);
               case_on (first_start (received st))
             | destruct (error_eqb err io_EOF);
               destruct (HasSuffix (Error err) "context canceled") ]
         | |- context [writer_Send ?r] =>
             unfold writer_Send; destruct r as [err|];
             [ destruct (HasSuffix (Error err) "context canceled") | ]
         end.
  all: split; simpl in *; try rewrite first_start_app.
  all: finish_inv.
Qed.

Lemma handshake_run (evs : list event) (st : state) :
  run G init evs = Some st -> handshake st.
Proof.
  exact (run_invariant G handshake handshake_step evs init st handshake_init).
Qed.

(** *** The scope *)

Lemma settle_no_parked (st : state) :
  ctx_done G st = true -> someone_parked (settle G st) = false.
Proof.
  intro H. unfold settle. rewrite H. unfold someone_parked. simpl.
  destruct (reader st) as [b|sr []|c []|r];
    destruct (writer st) as [[]|m|r'];
    destruct (invoker st) as [[]|call|r'']; reflexivity.
Qed.

(** Once [ctx.Done()] is closed nobody is left blocked on a channel. *)
Lemma step_no_parked (st st' : state) (ev : event) :
  step G st ev = Some st' -> ctx_done G st' = true ->
  someone_parked st' = false.
Proof.
  unfold step. destruct (pre_step G st ev) as [s|]; simpl; intros H D.
  - injection H as <-. rewrite settle_ctx_done in D.
    exact (settle_no_parked s D).
  - discriminate H.
Qed.

Lemma step_sCtx_Err (st st' : state) (ev : event) :
  step G st ev = Some st' ->
  sCtx_Err st' = sCtx_Err st \/
  (sCtx_Err st = None /\ exists c, sCtx_Err st' = Some (cause_error c)).
Proof.
  intro H. step_cases H; rewrite settle_sCtx_Err; simpl;
    try (left; reflexivity).
  right. split; [reflexivity | eexists; reflexivity].
Qed.

(** [ctx.Done()] stays closed. *)
Lemma step_ctx_done (st st' : state) (ev : event) :
  step G st ev = Some st' -> ctx_done G st = true -> ctx_done G st' = true.
Proof.
  intros H D. unfold ctx_done in *.
  apply orb_true_iff in D. apply orb_true_iff.
  destruct (step_sCtx_Err _ _ _ H) as [E|[E [c E']]];
    destruct (step_returns G _ _ _ H) as [R|[r R]]; rewrite ?E, ?E', ?R.
  - exact D.
  - destruct D as [D|D]; [left; exact D|right].
    apply group_cancel_final. exact D.
  - left. reflexivity.
  - left. reflexivity.
Qed.

Lemma run_ctx_done (evs : list event) (st st' : state) :
  ctx_done G st = true -> run G st evs = Some st' -> ctx_done G st' = true.
Proof.
  revert st st'. revert evs.
  apply (run_invariant G (fun s => ctx_done G s = true)).
  intros s s' ev D H. exact (step_ctx_done _ _ _ H D).
Qed.

Lemma context_error_step (st st' : state) (ev : event) :
  context_error (sCtx_Err st) -> step G st ev = Some st' ->
  context_error (sCtx_Err st').
Proof.
  intros C H. destruct (step_sCtx_Err _ _ _ H) as [E|[_ [c E]]]; rewrite E.
  - exact C.
  - right. exists c. reflexivity.
Qed.

(** *** What the group has been told *)

Lemma returns_origin_init : returns_origin init.
Proof. intros r []. Qed.

Lemma returns_origin_step (st st' : state) (ev : event) :
  returns_origin st -> step G st ev = Some st' -> returns_origin st'.
Proof.
  intros O H x. step_cases H.
  all: rewrite settle_returns; simpl.
  all: try match goal with
         | |- context [reader_Recv ?b ?r] =>
             destruct (reader_Recv b r) eqn:?
         | |- context [writer_Send ?r] => destruct (writer_Send r) eqn:?
         end.
  all: try (rewrite in_app_iff; simpl).
  all: intro Hx.
  all: try (destruct Hx as [Hx|[Hx|[]]]).
  all: try (apply O in Hx).
  all: try (subst x).
  all: rewrite_states.
  all: try (destruct Hx as [Hx|[Hx|Hx]]); try discriminate Hx.
  all: first
         [ left; apply settle_reader_RDone; simpl; congruence
         | right; left; apply settle_writer_WDone; simpl; congruence
         | right; right; apply settle_invoker_IDone; simpl; congruence
         | rewrite Hx; simpl; tauto ].
Qed.

Lemma returns_origin_run (evs : list event) (st : state) :
  run G init evs = Some st -> returns_origin st.
Proof.
  exact (run_invariant G returns_origin returns_origin_step evs init st
           returns_origin_init).
Qed.


(** *** The outbound order *)

Lemma outbound_init : outbound init.
Proof. reflexivity. Qed.

Lemma outbound_step (st st' : state) (ev : event) :
  outbound st -> step G st ev = Some st' -> outbound st'.
Proof.
  unfold outbound. intros O H. step_cases H.
  all: unfold settle; destruct (ctx_done G _); simpl.
  all: rewrite_states.
  all: try match goal with
         | |- context [writer_Send ?r] =>
             unfold writer_Send; destruct r as [err|];
             [ destruct (HasSuffix (Error err) "context canceled") | ]
         end; simpl.
  all: repeat match goal with
         | |- context [wake_writer ?x] => case_on x
         end.
  all: try solve [ assumption | congruence | left; assumption
                 | right; eexists; eassumption ].
Qed.

Lemma outbound_run (evs : list event) (st : state) :
  run G init evs = Some st -> outbound st.
Proof.
  exact (run_invariant G outbound outbound_step evs init st outbound_init).
Qed.

(** *** The exit *)

Lemma settle_all_returned (st : state) :
  all_returned (settle G st) = all_returned st.
Proof.
  unfold settle. destruct (ctx_done G st); [|reflexivity].
  unfold all_returned. simpl.
  destruct (reader st) as [b|sr s|c s|r]; try reflexivity.
  destruct (writer st) as [s|m|r']; try reflexivity.
  destruct (invoker st) as [s|call|r'']; reflexivity.
Qed.

Lemma exit_rule_init : exit_rule G init.
Proof.
  split; [left; reflexivity|].
  split; simpl; [intro H; destruct (H eq_refl) | exact I].
Qed.

Lemma error_eqb_Canceled (e : error) :
  error_eqb e context_Canceled = true -> e = context_Canceled.
Proof. destruct e; simpl; intro H; try discriminate H; reflexivity. Qed.

Ltac not_returned A :=
  exfalso;
  let A' := fresh "A" in
  assert (A' := A ltac:(discriminate));
  unfold all_returned in A'; rewrite_states;
  repeat match type of A' with
    | context [match ?x with _ => _ end] => destruct x
    end; discriminate A'.

Lemma exit_rule_step (st st' : state) (ev : event) :
  exit_rule G st -> step G st ev = Some st' -> exit_rule G st'.
Proof.
  intros [C [A B]] H.
  split; [exact (context_error_step _ _ _ C H)|].
  step_cases H.
  all: rewrite ?settle_main, ?settle_returns, ?settle_sCtx_Err,
      ?settle_all_returned; simpl.
  all: try solve [ destruct (main st) eqn:M;
                   [ split; [intro X; destruct (X eq_refl) | exact I]
                   | not_returned A .. ] ].
  - (* Cancel *)
    split; [exact A|].
    destruct (main st); auto.
    destruct (group_Wait G (returns st)); auto.
    destruct B as [B|[c0 [X _]]]; [left; exact B | discriminate X].
  - (* WaitReturns *)
    split; [intros _; assumption|].
    destruct (group_Wait G (returns st)) eqn:W; simpl.
    + reflexivity.
    + reflexivity.
  - (* ReadErr1 *)
    split; [intros _; apply A; discriminate|].
    destruct (sCtx_Err st) as [e|] eqn:S; simpl; [|exact B].
    destruct (error_eqb e context_Canceled) eqn:Q; [|exact B].
    apply error_eqb_Canceled in Q. subst e. rewrite B.
    right. exists cancelled. split; [reflexivity|].
    right. split; reflexivity.
  - (* ReadErr2 *)
    split; [intros _; apply A; discriminate|].
    unfold after_Err2. rewrite B.
    destruct C as [C|[c C]]; rewrite C.
    + left. reflexivity.
    + right. exists c. split; [reflexivity | left; reflexivity].
Qed.

Lemma exit_rule_run (evs : list event) (st : state) :
  run G init evs = Some st -> exit_rule G st.
Proof.
  exact (run_invariant G (exit_rule G) exit_rule_step evs init st exit_rule_init).
Qed.

(** *** After the reader has returned *)

Lemma reader_done_step (st st' : state) (ev : event) (r : result) :
  reader st = RDone r -> step G st ev = Some st' ->
  reader st' = RDone r /\ received st' = received st /\
  confirmed st' = confirmed st.
Proof.
  intros D H. step_cases H.
  all: rewrite ?settle_received, ?settle_confirmed; proj.
  all: try congruence.
  all: split; [apply settle_reader_RDone; proj; congruence|].
  all: split; reflexivity.
Qed.

Lemma reader_done_run (evs : list event) (st st' : state) (r : result) :
  reader st = RDone r -> run G st evs = Some st' ->
  reader st' = RDone r /\ received st' = received st /\
  confirmed st' = confirmed st.
Proof.
  revert st. induction evs as [|ev evs IH]; simpl; intros st D H.
  - injection H as <-. auto.
  - destruct (step G st ev) as [s|] eqn:E; [|discriminate H].
    destruct (reader_done_step _ _ _ _ D E) as [D1 [D2 D3]].
    destruct (IH s D1 H) as [X1 [X2 X3]].
    rewrite X2, X3, D2, D3. auto.
Qed.

(** *** A session that is winding down *)

Lemma not_parked (st : state) :
  someone_parked st = false ->
  wake_reader (reader st) = reader st /\
  wake_writer (writer st) = writer st /\
  wake_invoker (invoker st) = invoker st.
Proof.
  unfold someone_parked.
  destruct (reader st) as [b|sr []|c []|r];
    destruct (writer st) as [[]|m|r'];
    destruct (invoker st) as [[]|call|r'']; simpl; intro H;
    try discriminate H; auto.
Qed.

Lemma settle_idle (st : state) :
  someone_parked st = false -> settle G st = wake st \/ settle G st = st.
Proof. intros _. unfold settle. destruct (ctx_done G st); auto. Qed.

Lemma settle_handler_running (st : state) :
  handler_running (settle G st) = handler_running st.
Proof.
  unfold handler_running.
  destruct (settle_invoker G st) as [E|E]; rewrite E; [reflexivity|].
  destruct (invoker st) as [[]| |]; reflexivity.
Qed.

Lemma winding_down_step (st st' : state) (ev : event) :
  winding_down G st -> step G st ev = Some st' ->
  winding_down G st' /\ calls st' = calls st /\ handed st' = handed st /\
  confirmed st' = confirmed st.
Proof.
  intros [D [P R]] H.
  assert (D' := step_ctx_done _ _ _ H D).
  assert (P' := step_no_parked _ _ _ H D').
  unfold winding_down. rewrite D', P'. clear D' P'.
  step_cases H.
  all: rewrite ?settle_calls, ?settle_handed, ?settle_confirmed,
         ?settle_handler_running.
  all: unfold handler_running in *; proj.
  all: rewrite_states; try discriminate.
  all: try solve [ repeat split; assumption ].
  all: try solve [ running; congruence ].
  exfalso. unfold someone_parked in P. rewrite Heqr, Heqi in P.
  destruct s0, s1; try discriminate Heqb;
    destruct (writer st) as [[]| |]; discriminate P.
Qed.

Lemma winding_down_run (evs : list event) (st st' : state) :
  winding_down G st -> run G st evs = Some st' ->
  winding_down G st' /\ calls st' = calls st /\ handed st' = handed st /\
  confirmed st' = confirmed st.
Proof.
  revert st. induction evs as [|ev evs IH]; simpl; intros st W H.
  - injection H as <-. auto.
  - destruct (step G st ev) as [s|] eqn:E; [|discriminate H].
    destruct (winding_down_step _ _ _ W E) as [W1 [X1 [X2 X3]]].
    destruct (IH s W1 H) as [W2 [Y1 [Y2 Y3]]].
    rewrite Y1, Y2, Y3, X1, X2, X3. auto.
Qed.

Lemma meet_parked (st : state) (sr : StartConsumeRequest) (s1 s2 : sel) :
  reader st = RSendStart sr s1 -> invoker st = ISelect s2 ->
  meet s1 s2 = true -> someone_parked st = true.
Proof.
  intros E1 E2 M. unfold someone_parked. rewrite E1, E2.
  destruct s1, s2; try discriminate M;
    destruct (writer st) as [[]| |]; reflexivity.
Qed.

Ltac settled_task :=
  match goal with
  | |- context [reader (settle ?G ?s)] =>
      let E := fresh "E" in destruct (settle_reader G s) as [E|E]; rewrite E
  | |- context [writer (settle ?G ?s)] =>
      let E := fresh "E" in destruct (settle_writer G s) as [E|E]; rewrite E
  | |- context [invoker (settle ?G ?s)] =>
      let E := fresh "E" in destruct (settle_invoker G s) as [E|E]; rewrite E
  end.

Lemma winding_down_only_nil (st : state) :
  winding_down G st -> only_nil G st.
Proof.
  intros [D [P R]]. unfold only_nil.
  destruct (not_parked st P) as [N1 [N2 N3]].
  split; [|split; [|split]].
  - intros ev st' H.
    step_cases H.
    all: try discriminate D.
    all: try solve [ running; congruence ].
    all: try solve [ exfalso;
                     match goal with
                     | M : meet _ _ = true |- _ =>
                         rewrite (meet_parked st _ _ _ ltac:(eassumption)
                                    ltac:(eassumption) M) in P
                     end; discriminate P ].
    all: repeat split; intro At; settled_task; proj;
      rewrite ?N1, ?N2, ?N3; simpl; auto; try discriminate At.
  - intro At. unfold someone_parked in P.
    destruct (reader st) as [b|sr s|c s|r] eqn:E; try discriminate At;
      destruct s; try discriminate P;
      unfold step; simpl; unfold take_done, done_ready; rewrite E, ?D;
      (eexists; split; [reflexivity|]);
      apply settle_reader_RDone; reflexivity.
  - intro At. unfold someone_parked in P.
    destruct (writer st) as [s|m|r] eqn:E; try discriminate At.
    destruct s;
      try (rewrite orb_true_r in P; simpl in P; discriminate P);
      unfold step; simpl; unfold take_done, done_ready; rewrite E, ?D;
      (eexists; split; [reflexivity|]);
      apply settle_writer_WDone; reflexivity.
  - intro At. unfold someone_parked in P.
    destruct (invoker st) as [s|call|r] eqn:E; try discriminate At.
    destruct s;
      try (rewrite orb_true_r in P; discriminate P);
      unfold step; simpl; unfold take_done, done_ready; rewrite E, ?D;
      (eexists; split; [reflexivity|]);
      apply settle_invoker_IDone; reflexivity.
Qed.

(** *** Calls into the environment *)

Lemma step_Recv (st : state) (started : bool) (r : ConsumerRequest + error) :
  reader st = RRecv started ->
  step G st (Recv r) =
  Some (settle G (log_received (reader_to st (reader_Recv started r)) r)).
Proof. intro R. unfold step, pre_step. rewrite R. reflexivity. Qed.

Lemma step_SendReturns (st : state) (m : Message) (r : result) :
  writer st = WSend m ->
  step G st (SendReturns r) =
  Some (settle G (log_wire (writer_to st (writer_Send r)) m r)).
Proof. intro W. unfold step, pre_step. rewrite W. reflexivity. Qed.


End Invariants.

Section Progress.

Variable G : Group.

(** *** The control of [Consume] itself *)

Lemma step_main (st st' : state) (ev : event) :
  step G st ev = Some st' ->
  main st' = main st \/
  (main st = MWait /\ all_returned st = true /\
   main st' = after_Wait (group_Wait G (returns st))) \/
  (main st = MErr1 /\ main st' = after_Err1 (sCtx_Err st)) \/
  (main st = MErr2 /\ main st' = after_Err2 (sCtx_Err st)).
Proof.
  intro H. step_cases H; rewrite settle_main; proj; auto.
Qed.

Lemma all_returned_step (st st' : state) (ev : event) :
  all_returned st = true -> step G st ev = Some st' ->
  returns st' = returns st /\ all_returned st' = true.
Proof.
  intros A H. unfold all_returned in A.
  step_cases H; rewrite settle_returns, settle_all_returned;
    unfold all_returned; proj; rewrite_states; try discriminate A;
    try solve [ exfalso;
                repeat match type of A with
                  | context [match ?x with _ => _ end] => destruct x
                  end; discriminate A ];
    split; try reflexivity; try assumption.
Qed.

(** *** Termination of a session that is winding down *)

Lemma budget_settle (st : state) : budget (settle G st) = budget st.
Proof.
  unfold budget. rewrite settle_sCtx_Err, settle_main.
  destruct (settle_writer G st) as [E1|E1];
    destruct (settle_invoker G st) as [E2|E2]; rewrite E1, E2;
    destruct (writer st) as [[]| |]; destruct (invoker st) as [[]| |];
    reflexivity.
Qed.

Lemma budget_bound (st : state) : budget st <= 7.
Proof.
  unfold budget.
  destruct (sCtx_Err st); destruct (writer st); destruct (invoker st);
    destruct (main st); simpl; lia.
Qed.

Lemma budget_step (st st' : state) (ev : event) (r : result) :
  winding_down G st -> reader st = RDone r -> step G st ev = Some st' ->
  budget st' < budget st.
Proof.
  intros [D [P R]] E H. unfold handler_running in R.
  step_cases H; rewrite budget_settle; unfold budget; proj;
    rewrite_states; try discriminate;
    try solve [ running; congruence ].
  all: unfold after_Wait, after_Err1, after_Err2, writer_Send,
         all_returned in *.
  all: repeat match goal with
         | |- context [match ?x with _ => _ end] => is_var x; destruct x
         | |- context [if ?x then _ else _] => destruct x
         | |- context [group_Wait ?g ?l] => destruct (group_Wait g l)
         end.
  all: repeat match goal with
         | |- context [match ?x with _ => _ end] => destruct x
         end; simpl; try lia; try discriminate.
  all: rewrite_states; try discriminate.
Qed.

Lemma run_budget (evs : list event) (st st' : state) (r : result) :
  winding_down G st -> reader st = RDone r -> run G st evs = Some st' ->
  length evs + budget st' <= budget st.
Proof.
  revert st. induction evs as [|ev evs IH]; simpl; intros st W E H.
  - injection H as <-. lia.
  - destruct (step G st ev) as [s|] eqn:S; [|discriminate H].
    assert (B := budget_step _ _ _ _ W E S).
    destruct (winding_down_step G _ _ _ W S) as [W' _].
    destruct (reader_done_step G _ _ _ _ E S) as [E' _].
    specialize (IH s W' E' H). lia.
Qed.

(** Until [Consume] has returned, something can happen. *)
Lemma winding_down_progress (st : state) (r : result) :
  winding_down G st -> reader st = RDone r ->
  returned st \/ exists ev st', step G st ev = Some st'.
Proof.
  intros W E.
  destruct (winding_down_only_nil G st W) as [_ [_ [Nw Ni]]].
  destruct W as [D [P R]].
  destruct (writer st) as [s|m|rw] eqn:Ew.
  - right. destruct (Nw eq_refl) as [st' [S _]]. eauto.
  - right. rewrite <- Ew in *.
    eexists. eexists. apply (step_SendReturns G st m None). exact Ew.
  - destruct (invoker st) as [s|call|ri] eqn:Ei.
    + right. destruct (Ni eq_refl) as [st' [S _]]. eauto.
    + unfold handler_running in R. rewrite Ei in R. discriminate R.
    + assert (A : all_returned st = true).
      { unfold all_returned. rewrite E, Ew, Ei. reflexivity. }
      destruct (main st) as [| | |x] eqn:Em.
      * right. exists WaitReturns. unfold step, pre_step.
        rewrite Em, A. eexists. reflexivity.
      * right. exists ReadErr1. unfold step, pre_step.
        rewrite Em. eexists. reflexivity.
      * right. exists ReadErr2. unfold step, pre_step.
        rewrite Em. eexists. reflexivity.
      * left. exists x. exact Em.
Qed.

(** *** Runs through a given event *)


Lemma invoker_done_step (st st' : state) (ev : event) (r : result) :
  invoker st = IDone r -> step G st ev = Some st' -> invoker st' = IDone r.
Proof.
  intros D H. step_cases H; try congruence;
    apply settle_invoker_IDone; proj; congruence.
Qed.

Lemma invoker_done_run (evs : list event) (st st' : state) (r : result) :
  invoker st = IDone r -> run G st evs = Some st' -> invoker st' = IDone r.
Proof.
  revert st st'. revert evs.
  apply (run_invariant G (fun s => invoker s = IDone r)).
  intros s s' ev D H. exact (invoker_done_step _ _ _ _ D H).
Qed.

(** *** The messages handed over *)

Lemma handed_step (st st' : state) (ev : event) :
  step G st ev = Some st' -> handed st' = handed st ++ handler_sent [ev].
Proof.
  intro H. step_cases H; rewrite settle_handed; proj; simpl;
    rewrite ?app_nil_r; reflexivity.
Qed.

Lemma handler_sent_cons (ev : event) (evs : list event) :
  handler_sent (ev :: evs) = handler_sent [ev] ++ handler_sent evs.
Proof. destruct ev; reflexivity. Qed.

Lemma handed_run (evs : list event) (st st' : state) :
  run G st evs = Some st' -> handed st' = handed st ++ handler_sent evs.
Proof.
  revert st. induction evs as [|ev evs IH]; intros st H.
  - simpl in H. injection H as <-. simpl. symmetry. apply app_nil_r.
  - simpl in H. destruct (step G st ev) as [s|] eqn:S; [|discriminate H].
    rewrite (handler_sent_cons ev evs), (IH s H), (handed_step _ _ _ S).
    rewrite <- app_assoc. reflexivity.
Qed.

(** *** Errors from outside *)

Lemma returns_supplied (st st' : state) (ev : event) (e : error) :
  step G st ev = Some st' -> In (Some e) (returns st') ->
  In (Some e) (returns st) \/ supplied ev = Some e \/
  e = errStartedTwice \/ e = errInvalidConfirm \/ e = errInvalidRequest.
Proof.
  intro H. step_cases H; rewrite settle_returns; proj; auto.
  all: unfold reader_Recv, writer_Send;
    repeat match goal with
      | |- context [match ?x with _ => _ end] => is_var x; destruct x
      | |- context [GetStartRequest ?m] => destruct (GetStartRequest m)
      | |- context [GetConfirmation ?m] => destruct (GetConfirmation m)
      | |- context [if ?x then _ else _] => destruct x
      end;
    simpl; rewrite ?in_app_iff; simpl;
    repeat match goal with
      | |- context [match ?x with _ => _ end] => is_var x; destruct x
      end;
    intuition congruence.
Qed.

End Progress.

Section Flow.

Variable G : Group.

(** *** The inbound order *)

Lemma confirmations_app (l : list ConsumerRequest) (msg : ConsumerRequest) :
  confirmations (l ++ [msg]) =
  confirmations l ++ match forwarded msg with
                     | Some c => [c]
                     | None => []
                     end.
Proof.
  induction l as [|x l IH]; simpl.
  - destruct (forwarded msg); reflexivity.
  - rewrite IH. destruct (forwarded x); reflexivity.
Qed.

Lemma inbound_init : inbound init.
Proof. reflexivity. Qed.

Lemma inbound_step (st st' : state) (ev : event) :
  inbound st -> step G st ev = Some st' -> inbound st'.
Proof.
  unfold inbound. intros I H. step_cases H.
  all: unfold settle; destruct (ctx_done G _); proj;
    cbn [wake reader received confirmed].
  all: rewrite_states.
  all: try match goal with
         | |- context [reader_Recv _ ?r] =>
             unfold reader_Recv; destruct r as [msg|err]
         end.
  all: simpl; rewrite ?confirmations_app; unfold forwarded.
  all: repeat match goal with
         | |- context [GetStartRequest ?m] => destruct (GetStartRequest m)
         | |- context [GetConfirmation ?m] => destruct (GetConfirmation m)
         | |- context [if ?x then _ else _] => destruct x
         end.
  all: simpl; rewrite ?app_nil_r.
  all: repeat match goal with
         | |- context [wake_reader ?x] => case_on x
         end.
  all: try solve [ assumption | congruence | left; assumption
                 | right; eexists; eassumption
                 | right; eexists; rewrite I; reflexivity
                 | left; rewrite I; reflexivity
                 | rewrite I; reflexivity ].
Qed.

Lemma inbound_run (evs : list event) (st : state) :
  run G init evs = Some st -> inbound st.
Proof.
  exact (run_invariant G inbound inbound_step evs init st inbound_init).
Qed.

(** *** The exit once the stream's context has ended *)

Lemma ended_early_step (e : error) (st st' : state) (ev : event) :
  exit_rule G st -> ended_early G e st -> step G st ev = Some st' ->
  ended_early G e st'.
Proof.
  intros [_ [A _]] [S M] H. unfold ended_early.
  assert (S' : sCtx_Err st' = Some e).
  { destruct (step_sCtx_Err G _ _ _ H) as [X|[X _]]; congruence. }
  split; [exact S'|].
  destruct (step_main G _ _ _ H) as [X|[[X1 [X2 X3]]|[[X1 X2]|[X1 X2]]]].
  - rewrite X. destruct (main st) eqn:Em; [exact I|..];
      destruct (all_returned_step G _ _ _ (A ltac:(discriminate)) H)
        as [R _]; rewrite R; exact M.
  - destruct (all_returned_step G _ _ _ X2 H) as [R _].
    rewrite X3, R. destruct (group_Wait G (returns st)) eqn:W; simpl.
    + reflexivity.
    + reflexivity.
  - rewrite X1 in M, A.
    destruct (all_returned_step G _ _ _ (A ltac:(discriminate)) H)
      as [R _].
    rewrite X2, R, S. unfold after_Err1, context_exit.
    destruct (error_eqb e context_Canceled) eqn:Q.
    + rewrite M. reflexivity.
    + split; [exact M | reflexivity].
  - rewrite X1 in M, A.
    destruct (all_returned_step G _ _ _ (A ltac:(discriminate)) H)
      as [R _].
    rewrite X2, R, S. unfold after_Err2, context_exit.
    destruct M as [M Q]. rewrite M, Q. reflexivity.
Qed.

Lemma ended_early_run (e : error) (evs : list event) (st st' : state) :
  exit_rule G st -> ended_early G e st -> run G st evs = Some st' ->
  ended_early G e st'.
Proof.
  revert st. induction evs as [|ev evs IH]; simpl; intros st X E H.
  - injection H as <-. exact E.
  - destruct (step G st ev) as [s|] eqn:S; [|discriminate H].
    exact (IH s (exit_rule_step G _ _ _ X S)
             (ended_early_step e _ _ _ X E S) H).
Qed.

(** *** Nobody has returned yet *)


(** What [Wait] reports when every task has returned nil. *)
Lemma all_nil_Wait (evs : list event) (st : state) :
  run G init evs = Some st ->
  reader st = RDone None -> writer st = WDone None ->
  invoker st = IDone None ->
  group_Wait G (returns st) = None.
Proof.
  intros H R W I. destruct (group_Wait G (returns st)) as [e|] eqn:E;
    [|reflexivity].
  apply group_Wait_origin in E.
  destruct (returns_origin_run G evs st H _ E) as [X|[X|X]]; congruence.
Qed.

End Flow.

Section Closing.

Variable G : Group.


(** A hand-off on [startRequest] needs one side blocked. *)
Lemma no_handoff (st : state) :
  someone_parked st = false -> step G st StartHandoff = None.
Proof.
  intro P. unfold step, pre_step.
  destruct (reader st) as [b|sr s1|c s1|r] eqn:E1; try reflexivity.
  destruct (invoker st) as [s2|call|r] eqn:E2; try reflexivity.
  destruct (meet s1 s2) eqn:M; [|reflexivity].
  rewrite (meet_parked st sr s1 s2 E1 E2 M) in P. discriminate P.
Qed.

Lemma step_Cancel (st : state) (c : cause) :
  sCtx_Err st = None ->
  step G st (Cancel c) = Some (settle G (end_context st c)).
Proof. intro S. unfold step, pre_step. rewrite S. reflexivity. Qed.

End Closing.

(** ** Start-up: splitting and parsing the endpoints option *)

Lemma strings_Split_not_nil (s : string) (sep : Ascii.ascii) :
  strings_Split s sep <> [].
Proof.
  destruct s as [|c s]; simpl; [discriminate|].
  destruct (Ascii.eqb c sep); [discriminate|].
  destruct (strings_Split s sep); discriminate.
Qed.

Lemma joined_cons (p : string) (rest : list string) (sep : Ascii.ascii) :
  rest <> [] ->
  joined (p :: rest) sep = (p ++ String sep (joined rest sep))%string.
Proof.
  destruct rest as [|q rest]; [congruence|reflexivity].
Qed.

Lemma joined_strings_Split (s : string) (sep : Ascii.ascii) :
  joined (strings_Split s sep) sep = s.
Proof.
  induction s as [|c s IH]; [reflexivity|].
  simpl strings_Split.
  destruct (Ascii.eqb c sep) eqn:E.
  - apply Ascii.eqb_eq in E. subst c.
    rewrite joined_cons by apply strings_Split_not_nil.
    simpl. now rewrite IH.
  - destruct (strings_Split s sep) as [|piece rest] eqn:S.
    + now destruct (strings_Split_not_nil s sep).
    + destruct rest as [|q rest].
      * simpl in *. now rewrite IH.
      * rewrite joined_cons in IH by discriminate.
        rewrite joined_cons by discriminate.
        cbn [append]. now rewrite IH.
Qed.

Lemma strings_Split_piece (p : string) (sep : Ascii.ascii) :
  has_byte p sep = false -> strings_Split p sep = [p].
Proof.
  induction p as [|c p IH]; simpl; [reflexivity|].
  intros H. apply orb_false_iff in H. destruct H as [H1 H2].
  rewrite H1, (IH H2). reflexivity.
Qed.

Lemma strings_Split_app (p t : string) (sep : Ascii.ascii) :
  has_byte p sep = false ->
  strings_Split (p ++ String sep t) sep = p :: strings_Split t sep.
Proof.
  induction p as [|c p IH]; simpl; intros H.
  - now rewrite Ascii.eqb_refl.
  - apply orb_false_iff in H. destruct H as [H1 H2].
    rewrite H1, (IH H2). reflexivity.
Qed.

Lemma strings_Split_joined (l : list string) (sep : Ascii.ascii) :
  l <> [] ->
  Forall (fun p => has_byte p sep = false) l ->
  strings_Split (joined l sep) sep = l.
Proof.
  induction l as [|p l IH]; [congruence|].
  intros _ F. inversion F as [|? ? Hp Hl]; subst.
  destruct l as [|q l].
  - simpl. now apply strings_Split_piece.
  - rewrite joined_cons by discriminate.
    rewrite strings_Split_app by assumption.
    rewrite IH; [reflexivity|discriminate|assumption].
Qed.

Lemma known_endpoint_name (p : string) :
  known_endpoint p = true <-> endpoint_name p.
Proof.
  unfold known_endpoint, endpoint_name.
  rewrite orb_true_iff, !String.eqb_eq. tauto.
Qed.

Lemma endpoint_name_no_comma (p : string) :
  endpoint_name p -> has_byte p comma = false.
Proof.
  intros [H|H]; subst; reflexivity.
Qed.

Lemma map_set_true (m : bool_map) (key k : string) :
  map_set m key true k = true <-> k = key \/ m k = true.
Proof.
  unfold map_set. destruct (String.eqb k key) eqn:E.
  - apply String.eqb_eq in E. tauto.
  - apply String.eqb_neq in E. tauto.
Qed.

Lemma parseEndpoints_range_ok (pieces : list string) :
  Forall endpoint_name pieces ->
  forall enabled logged,
  exists enabled',
    parseEndpoints_range pieces enabled logged
      = (logged ++ map enabled_line pieces, Some enabled') /\
    forall key, enabled' key = true <-> enabled key = true \/ In key pieces.
Proof.
  induction 1 as [|p pieces Hp _ IH]; intros enabled logged; simpl.
  - exists enabled. rewrite app_nil_r. split; [reflexivity|tauto].
  - apply known_endpoint_name in Hp. rewrite Hp.
    destruct (IH (map_set enabled p true) (logged ++ [enabled_line p]))
      as [m [E K]].
    exists m. split.
    + rewrite E, <- app_assoc. reflexivity.
    + intros key. rewrite K, map_set_true. intuition congruence.
Qed.

Lemma parseEndpoints_range_bad (before : list string) (bad : string)
    (rest : list string) :
  Forall endpoint_name before ->
  ~ endpoint_name bad ->
  forall enabled logged,
    parseEndpoints_range (before ++ bad :: rest) enabled logged
      = (logged ++ map enabled_line before ++ [invalid_line bad], None).
Proof.
  intros F B. induction F as [|p before Hp _ IH]; intros enabled logged; simpl.
  - destruct (known_endpoint bad) eqn:E; [|reflexivity].
    apply known_endpoint_name in E. contradiction.
  - apply known_endpoint_name in Hp. rewrite Hp, IH, <- app_assoc.
    reflexivity.
Qed.

Lemma parseEndpoints_range_Some (pieces : list string) :
  forall enabled logged enabled',
    snd (parseEndpoints_range pieces enabled logged) = Some enabled' ->
    Forall endpoint_name pieces.
Proof.
  induction pieces as [|p pieces IH]; intros enabled logged enabled' H.
  - constructor.
  - simpl in H. destruct (known_endpoint p) eqn:E; [|discriminate].
    constructor; [now apply known_endpoint_name|].
    exact (IH _ _ _ H).
Qed.

Lemma parseEndpoints_enabled (endpoints : string) (enabled : bool_map) :
  snd (parseEndpoints endpoints) = Some enabled ->
  forall key,
    enabled key = true <-> In key (strings_Split endpoints comma).
Proof.
  intros H key. unfold parseEndpoints in H.
  destruct (parseEndpoints_range_ok _
              (parseEndpoints_range_Some _ _ _ _ H) make_map [])
    as [m [E K]].
  rewrite E in H. simpl in H. injection H as <-.
  rewrite K. unfold make_map. intuition discriminate.
Qed.

(** ** Start-up: the back ends and the server *)

Lemma registrations_In (handler : Type) (hs : handlers handler)
    (svc : service) (h : handler) :
  In (Register svc h) (registrations handler hs) <->
  (svc = MessageSource /\ cHandler hs = Some h) \/
  (svc = MessageSink /\ pHandler hs = Some h).
Proof.
  unfold registrations.
  destruct hs as [[c|] [p|]]; simpl; split; intros H;
    repeat match goal with
           | H : _ \/ _ |- _ => destruct H
           | H : _ /\ _ |- _ => destruct H
           | H : False |- _ => destruct H
           | H : Register _ _ = Register _ _ |- _ => injection H as <- <-
           | H : Some _ = Some _ |- _ => injection H as <-
           end;
    subst; try discriminate; auto.
Qed.

(** Walks an equation [l = before ++ x :: rest], with [l] a list written
    out, through the places where [x] can stand. *)
Ltac walk_to T :=
  lazymatch type of T with
  | _ = ?b ++ _ :: _ =>
      destruct b as [|? b]; simpl in T;
      [ first [ discriminate T
              | injection T as <- <- <- ]
      | first [ discriminate T
              | injection T as <- T; walk_to T ] ]
  end.

Section StartUp.

Variable KafkaVersion : Type.
Variable ParseKafkaVersion : string -> KafkaVersion + error.

Local Abbreviation handler := (handler KafkaVersion).
Local Abbreviation run_action := (run_action KafkaVersion ParseKafkaVersion).
Local Abbreviation main_effects :=
  (main_effects KafkaVersion ParseKafkaVersion).

Lemma run_action_effects (enabled : bool_map) (cmd : command) (w : world)
    (tr : list (effect handler)) (out : option (handlers handler)) :
  run_action enabled cmd w = (tr, out) ->
  Forall action_effect tr.
Proof.
  destruct cmd as [b v| |]; simpl.
  - unfold kafka_action.
    destruct (String.eqb v "");
      [|destruct (ParseKafkaVersion v)];
      intros H; injection H as <- <-; constructor.
  - unfold nats_action.
    destruct (enabled consumeEndpoint), (nats_consume_err w),
      (enabled publishEndpoint), (nats_produce_err w);
      intros H; injection H as <- <-; simpl;
      repeat constructor.
  - unfold mem_action. intros H; injection H as <- <-; constructor.
Qed.

Lemma run_action_handlers (enabled : bool_map) (cmd : command) (w : world)
    (tr : list (effect handler)) (hs : handlers handler) :
  run_action enabled cmd w = (tr, Some hs) ->
  ((exists h, cHandler hs = Some h) <-> enabled consumeEndpoint = true) /\
  ((exists h, pHandler hs = Some h) <-> enabled publishEndpoint = true).
Proof.
  destruct cmd as [b v| |]; simpl.
  - unfold kafka_action.
    destruct (String.eqb v "");
      [|destruct (ParseKafkaVersion v); [|discriminate]];
      intros H; injection H as <- <-; simpl;
      destruct (enabled consumeEndpoint), (enabled publishEndpoint);
      (split; (split; [intros [h E]; (discriminate || reflexivity)
                     | intros E; (discriminate || eauto)])).
  - unfold nats_action.
    destruct (enabled consumeEndpoint), (nats_consume_err w),
      (enabled publishEndpoint), (nats_produce_err w);
      intros H; try discriminate; injection H as <- <-; simpl;
      (split; (split; [intros [h E]; (discriminate || reflexivity)
                     | intros E; (discriminate || eauto)])).
  - unfold mem_action. intros H; injection H as <- <-; simpl.
    destruct (enabled consumeEndpoint), (enabled publishEndpoint);
      (split; (split; [intros [h E]; (discriminate || reflexivity)
                     | intros E; (discriminate || eauto)])).
Qed.

Lemma main_effects_Some (port : Z) (endpoints : string) (cmd : command)
    (w : world) (tr : list (effect handler)) (r : result) :
  main_effects port endpoints cmd w = (tr, Some r) ->
  exists enabled done hs,
    snd (parseEndpoints endpoints) = Some enabled /\
    run_action enabled cmd w = (done, Some hs) /\
    tr = done ++ fst (listenAndServe handler hs port (listen_err w)
                        (serve_end w)) /\
    r = snd (listenAndServe handler hs port (listen_err w) (serve_end w)).
Proof.
  unfold main_effects.
  destruct (snd (parseEndpoints endpoints)) as [enabled|]; [|discriminate].
  destruct (run_action enabled cmd w) as [done [hs|]] eqn:A; [|discriminate].
  destruct (listenAndServe handler hs port (listen_err w) (serve_end w))
    as [served err] eqn:L.
  intros H. injection H as <- <-.
  exists enabled, done, hs. rewrite L. repeat split; auto.
Qed.

Lemma main_effects_None (port : Z) (endpoints : string) (cmd : command)
    (w : world) :
  snd (main_effects port endpoints cmd w) = None <->
  match snd (parseEndpoints endpoints) with
  | None => True
  | Some enabled => snd (run_action enabled cmd w) = None
  end.
Proof.
  unfold main_effects.
  destruct (snd (parseEndpoints endpoints)) as [enabled|]; [|simpl; tauto].
  destruct (run_action enabled cmd w) as [done [hs|]]; [|simpl; tauto].
  destruct (listenAndServe handler hs port (listen_err w) (serve_end w)).
  simpl. split; discriminate.
Qed.

Lemma main_effects_fatal (port : Z) (endpoints : string) (cmd : command)
    (w : world) (tr : list (effect handler)) :
  main_effects port endpoints cmd w = (tr, None) ->
  tr = [] \/
  exists enabled, run_action enabled cmd w = (tr, None).
Proof.
  unfold main_effects.
  destruct (snd (parseEndpoints endpoints)) as [enabled|];
    [|intros H; injection H as <-; auto].
  destruct (run_action enabled cmd w) as [done [hs|]] eqn:A.
  - destruct (listenAndServe handler hs port (listen_err w) (serve_end w)).
    discriminate.
  - intros H. injection H as <-. eauto.
Qed.

Lemma action_effect_not_Register (tr : list (effect handler))
    (svc : service) (h : handler) :
  Forall action_effect tr -> ~ In (Register svc h) tr.
Proof.
  intros F H. rewrite Forall_forall in F. exact (F _ H).
Qed.

End StartUp.

(** * The claims *)



(** C5. Whatever the phase of the session, an envelope in which neither the
    start request nor the confirmation is set makes the reader return
    [errInvalidRequest], an invalid-argument error; the envelope is not
    skipped. *)
Theorem unset_envelope_rejected (G : Group) (st : state) (started : bool)
    (msg : ConsumerRequest) :
  reader st = RRecv started ->
  GetStartRequest msg = None ->
  GetConfirmation msg = None ->
  reader_Recv started (inl msg) = RDone (Some errInvalidRequest) /\
  code_of errInvalidRequest = Some InvalidArgument /\
  exists st', step G st (Recv (inl msg)) = Some st' /\
              reader st' = RDone (Some errInvalidRequest) /\
              returns st' = returns st ++ [Some errInvalidRequest].
Proof.
  intros R S C.
  assert (X : reader_Recv started (inl msg) = RDone (Some errInvalidRequest)).
  { unfold reader_Recv. rewrite S, C. reflexivity. }
  split; [exact X|]. split; [reflexivity|].
  rewrite (step_Recv G st started (inl msg) R), X.
  eexists. split; [reflexivity|]. split.
  - apply settle_reader_RDone. reflexivity.
  - rewrite settle_returns. reflexivity.
Qed.

Lemma unset_envelope_rejected_witness :
  reader_Recv false
    (inl {| GetStartRequest := None; GetConfirmation := None |}) =
    RDone (Some errInvalidRequest) /\
  reader_Recv true
    (inl {| GetStartRequest := None; GetConfirmation := None |}) =
    RDone (Some errInvalidRequest).
Proof.
  split.
  - apply (unset_envelope_rejected first_return_group init false
             {| GetStartRequest := None; GetConfirmation := None |});
      reflexivity.
  - apply (unset_envelope_rejected first_return_group
             (reader_to init (RRecv true)) true
             {| GetStartRequest := None; GetConfirmation := None |});
      reflexivity.
Defined.

(** C9. An error of [stream.Recv] or of [stream.Send] whose text ends in
    "context canceled" makes the reader, respectively the writer, return nil.
    Only the text is looked at: the state of the session's own scope plays
    no part. *)
Theorem canceled_suffix_returns_nil (err : error) :
  HasSuffix (Error err) "context canceled" = true ->
  (forall started, reader_Recv started (inr err) = RDone None) /\
  writer_Send (Some err) = WDone None /\
  (forall G st started,
      reader st = RRecv started ->
      exists st', step G st (Recv (inr err)) = Some st' /\
                  reader st' = RDone None) /\
  (forall G st m,
      writer st = WSend m ->
      exists st', step G st (SendReturns (Some err)) = Some st' /\
                  writer st' = WDone None).
Proof.
  intro S.
  assert (X : forall started, reader_Recv started (inr err) = RDone None).
  { intro started. unfold reader_Recv. rewrite S.
    destruct (error_eqb err io_EOF); reflexivity. }
  assert (Y : writer_Send (Some err) = WDone None).
  { unfold writer_Send. rewrite S. reflexivity. }
  split; [exact X|]. split; [exact Y|]. split.
  - intros G st started R.
    rewrite (step_Recv G st started (inr err) R), X.
    eexists. split; [reflexivity|].
    apply settle_reader_RDone. reflexivity.
  - intros G st m W.
    rewrite (step_SendReturns G st m (Some err) W), Y.
    eexists. split; [reflexivity|].
    apply settle_writer_WDone. reflexivity.
Qed.

Lemma canceled_suffix_returns_nil_witness :
  ctx_done first_error_group init = false /\
  reader_Recv true (inr (other_error "dial tcp 10.0.0.7: context canceled"))
    = RDone None /\
  writer_Send (Some (status_Error Canceled "context canceled")) = WDone None.
Proof.
  split; [reflexivity|]. split.
  - apply (canceled_suffix_returns_nil
             (other_error "dial tcp 10.0.0.7: context canceled")).
    reflexivity.
  - apply (canceled_suffix_returns_nil
             (status_Error Canceled "context canceled")).
    reflexivity.
Defined.

(** * Further properties of the bridge *)

(** X1. Once a start request has been observed, a further envelope that
    carries a start request makes the reader return [errStartedTwice], the
    invalid-argument error "consumption already started"; after that the
    session receives no further envelope and forwards no further
    confirmation. *)
Theorem second_start_rejected (G : Group) (evs : list event) (st : state)
    (started : bool) (msg : ConsumerRequest) (sr : StartConsumeRequest) :
  run G init evs = Some st ->
  first_start (received st) <> None ->
  reader st = RRecv started ->
  GetStartRequest msg = Some sr ->
  exists st',
    step G st (Recv (inl msg)) = Some st' /\
    reader st' = RDone (Some errStartedTwice) /\
    errStartedTwice =
      status_Error InvalidArgument "consumption already started" /\
    forall evs' st'',
      run G st' evs' = Some st'' ->
      reader st'' = RDone (Some errStartedTwice) /\
      received st'' = received st' /\
      confirmed st'' = confirmed st'.
Proof.
  intros Hrun Hseen R S.
  assert (Hb : started = true).
  { destruct (handshake_run G evs st Hrun) as [H1 _ _ _ _].
    rewrite R in H1. rewrite H1.
    destruct (first_start (received st)); [reflexivity | destruct (Hseen eq_refl)]. }
  subst started.
  assert (X : reader_Recv true (inl msg) = RDone (Some errStartedTwice)).
  { unfold reader_Recv. rewrite S. reflexivity. }
  rewrite (step_Recv G st true (inl msg) R), X.
  eexists. split; [reflexivity|].
  assert (D : reader (settle G (log_received
                (reader_to st (RDone (Some errStartedTwice))) (inl msg)))
              = RDone (Some errStartedTwice)).
  { apply settle_reader_RDone. reflexivity. }
  split; [exact D|]. split; [reflexivity|].
  intros evs' st'' H. exact (reader_done_run G evs' _ st'' _ D H).
Qed.

Lemma second_start_rejected_witness :
  exists st',
    step first_return_group (after first_return_group handshake_events)
      (Recv (inl start_orders)) = Some st' /\
    reader st' = RDone (Some errStartedTwice).
Proof.
  destruct (second_start_rejected first_return_group handshake_events
              (after first_return_group handshake_events) true
              start_orders orders eq_refl ltac:(cbv; discriminate)
              eq_refl eq_refl) as [st' [S [R _]]].
  exists st'. split; assumption.
Defined.

(** X2. While no start request has been observed, an envelope that carries
    a confirmation makes the reader return [errInvalidConfirm], the
    invalid-argument error "invalid confirmation".  [HandleConsume] has not
    been called and is not called afterwards, and the session terminates:
    whatever happens next, at most seven more steps are possible, and as
    long as [Consume] has not returned a step is possible. *)
Theorem early_confirmation_rejected (G : Group) (evs : list event)
    (st : state) (started : bool) (msg : ConsumerRequest)
    (c : Confirmation) :
  run G init evs = Some st ->
  first_start (received st) = None ->
  reader st = RRecv started ->
  GetStartRequest msg = None ->
  GetConfirmation msg = Some c ->
  exists st',
    step G st (Recv (inl msg)) = Some st' /\
    reader st' = RDone (Some errInvalidConfirm) /\
    errInvalidConfirm = status_Error InvalidArgument "invalid confirmation" /\
    calls st' = [] /\
    forall evs' st'',
      run G st' evs' = Some st'' ->
      calls st'' = [] /\
      handler_running st'' = false /\
      length evs' <= 7 /\
      (returned st'' \/ exists ev st3, step G st'' ev = Some st3).
Proof.
  intros Hrun Hnone R S C.
  destruct (handshake_run G evs st Hrun) as [H1 H2 H3 _ _].
  rewrite R, Hnone in H1. simpl in H1. subst started.
  assert (Hc : calls st = []).
  { destruct H2 as [H2|[sr [H2 _]]]; [exact H2|].
    rewrite Hnone in H2. discriminate H2. }
  assert (Hr : handler_running st = false).
  { unfold handler_running. destruct (invoker st) as [s|call|r];
      try reflexivity. rewrite Hc in H3. discriminate H3. }
  assert (X : reader_Recv false (inl msg) = RDone (Some errInvalidConfirm)).
  { unfold reader_Recv. rewrite S, C. reflexivity. }
  assert (Hstep := step_Recv G st false (inl msg) R). rewrite X in Hstep.
  set (st' := settle G (log_received
                 (reader_to st (RDone (Some errInvalidConfirm))) (inl msg)))
    in *.
  assert (D : reader st' = RDone (Some errInvalidConfirm)).
  { apply settle_reader_RDone. reflexivity. }
  assert (Hc' : calls st' = []).
  { unfold st'. rewrite settle_calls. exact Hc. }
  assert (W : winding_down G st').
  { assert (Dn : ctx_done G st' = true).
    { unfold ctx_done, st'. rewrite settle_returns, settle_sCtx_Err.
      cbn [returns sCtx_Err log_received reader_to].
      apply orb_true_iff. right.
      apply (group_error_cancels G) with (e := errInvalidConfirm).
      apply in_or_app. right. left. reflexivity. }
    split; [exact Dn|]. split.
    - exact (step_no_parked G _ _ _ Hstep Dn).
    - unfold st'. rewrite settle_handler_running. exact Hr. }
  exists st'. split; [exact Hstep|]. split; [exact D|].
  split; [reflexivity|]. split; [exact Hc'|].
  intros evs' st'' H.
  destruct (winding_down_run G evs' st' st'' W H) as [W' [E1 _]].
  destruct (reader_done_run G evs' st' st'' _ D H) as [D' _].
  split; [rewrite E1; exact Hc'|].
  split; [exact (proj2 (proj2 W'))|].
  split.
  - assert (B := run_budget G evs' st' st'' _ W D H).
    assert (B' := budget_bound st'). lia.
  - exact (winding_down_progress G st'' _ W' D').
Qed.

Lemma early_confirmation_rejected_witness :
  exists st',
    step first_error_group init (Recv (inl (confirm "1"))) = Some st' /\
    reader st' = RDone (Some errInvalidConfirm) /\
    calls st' = [].
Proof.
  destruct (early_confirmation_rejected first_error_group [] init false
              (confirm "1") {| MsgID := "1" |} eq_refl eq_refl eq_refl
              eq_refl eq_refl) as [st' [S [R [_ [C _]]]]].
  exists st'. auto.
Defined.

(** X3. The messages for which [stream.Send] has returned nil are, in the
    same order and without repetition, the messages the handler has sent on
    [forClient], short of at most the last one (the one [stream.Send] is
    being called with, or has failed on); when the writer is back at its
    [select] none is missing.  This holds in every state a session can
    reach, whatever the reader and the confirmations do meanwhile. *)
Theorem outbound_order (G : Group) (evs : list event) (st : state) :
  run G init evs = Some st ->
  handed st = handler_sent evs /\
  (exists rest, handler_sent evs = wire st ++ rest /\ length rest <= 1) /\
  (forall s, writer st = WSelect s -> wire st = handler_sent evs) /\
  (forall m, writer st = WSend m -> handler_sent evs = wire st ++ [m]).
Proof.
  intro H.
  assert (E : handed st = handler_sent evs).
  { rewrite (handed_run G evs init st H). reflexivity. }
  assert (O := outbound_run G evs st H). unfold outbound in O.
  rewrite <- E. split; [reflexivity|].
  split; [|split].
  - destruct (writer st) as [s|m|r].
    + exists []. rewrite app_nil_r. auto.
    + exists [m]. auto.
    + destruct O as [O|[m O]].
      * exists []. rewrite app_nil_r. auto.
      * exists [m]. auto.
  - intros s W. rewrite W in O. symmetry. exact O.
  - intros m W. rewrite W in O. exact O.
Qed.

Lemma outbound_order_witness :
  wire (after first_return_group traffic_events) =
    [message "1"; message "2"; message "3"] /\
  confirmed (after first_return_group traffic_events) =
    [{| MsgID := "1" |}; {| MsgID := "2" |}].
Proof.
  assert (H : run first_return_group init traffic_events =
              Some (after first_return_group traffic_events))
    by (vm_compute; reflexivity).
  destruct (outbound_order first_return_group traffic_events
              (after first_return_group traffic_events) H)
    as [_ [_ [W _]]].
  split; [|vm_compute; reflexivity].
  rewrite (W Arriving ltac:(vm_compute; reflexivity)).
  vm_compute. reflexivity.
Defined.

(** X11. [Consume] never returns [errNotConnected] of its own: whenever
    neither the stream (through [Recv] or [Send]) nor the handler has
    supplied that error, the value [Consume] returns is not
    [errNotConnected]. *)
Theorem errNotConnected_not_returned (G : Group) (evs : list event)
    (st : state) (r : result) :
  run G init evs = Some st ->
  Forall (fun ev => supplied ev <> Some errNotConnected) evs ->
  main st = MReturned r ->
  r <> Some errNotConnected.
Proof.
  intros Hrun Hclean Hm.
  assert (Hret : ~ In (Some errNotConnected) (returns st)).
  { clear Hm. revert Hrun Hclean.
    assert (Gen : forall evs s s',
               ~ In (Some errNotConnected) (returns s) ->
               Forall (fun ev => supplied ev <> Some errNotConnected) evs ->
               run G s evs = Some s' ->
               ~ In (Some errNotConnected) (returns s')).
    { clear. induction evs as [|ev evs IH]; simpl; intros s s' N F H.
      - injection H as <-. exact N.
      - destruct (step G s ev) as [s1|] eqn:S; [|discriminate H].
        inversion F as [|? ? F1 F2]; subst.
        apply (IH s1 s'); [|exact F2|exact H].
        intro I.
        destruct (returns_supplied G s s1 ev errNotConnected S I)
          as [X|[X|[X|[X|X]]]];
          [exact (N X) | exact (F1 X) | discriminate X ..]. }
    intros Hrun Hclean. apply (Gen evs init st); auto. }
  destruct (exit_rule_run G evs st Hrun) as [_ [_ B]].
  rewrite Hm in B.
  destruct (group_Wait G (returns st)) as [e|] eqn:W.
  - subst r. intro X. injection X as ->.
    apply Hret. exact (group_Wait_origin G _ _ W).
  - destruct B as [B|[c [_ [B|[_ B]]]]]; subst r;
      [discriminate | destruct c; discriminate | discriminate].
Qed.

Lemma errNotConnected_not_returned_witness :
  main (after first_return_group send_failure_events) =
    MReturned (Some (other_error "transport is closing")) /\
  Some (other_error "transport is closing") <> Some errNotConnected.
Proof.
  split; [vm_compute; reflexivity|].
  apply (errNotConnected_not_returned first_return_group send_failure_events
           (after first_return_group send_failure_events)).
  - vm_compute. reflexivity.
  - unfold send_failure_events, handshake_events. simpl app.
    repeat (apply Forall_cons; [simpl; discriminate|]). apply Forall_nil.
  - vm_compute. reflexivity.
Defined.

(** X5. [HandleConsume] is called at most once in a session; the configuration
    it is given holds the topic, consumer and initial offset of the first
    start request received, and it is given the group's context and the two
    channels [forClient] and [confirmRequest]. *)
Theorem handler_called_once (G : Group) (evs : list event) (st : state) :
  run G init evs = Some st ->
  length (calls st) <= 1 /\
  forall call,
    In call (calls st) ->
    exists sr,
      first_start (received st) = Some sr /\
      topic (arg_conf call) = sr_Topic sr /\
      consumer (arg_conf call) = sr_Consumer sr /\
      offset (arg_conf call) = sr_InitialOffset sr /\
      arg_ctx call = group_context /\
      arg_forClient call = forClient /\
      arg_confirmRequest call = confirmRequest.
Proof.
  intro H. destruct (handshake_run G evs st H) as [_ H2 _ _ _].
  destruct H2 as [E|[sr [F E]]]; rewrite E; simpl.
  - split; [lia | intros call []].
  - split; [lia|]. intros call [<-|[]]. exists sr.
    repeat split; try reflexivity. exact F.
Qed.

Lemma handler_called_once_witness :
  calls (after first_return_group traffic_events) = [invoker_call orders] /\
  length (calls (after first_return_group traffic_events)) <= 1.
Proof.
  assert (H : run first_return_group init traffic_events =
              Some (after first_return_group traffic_events))
    by (vm_compute; reflexivity).
  split; [vm_compute; reflexivity|].
  exact (proj1 (handler_called_once first_return_group traffic_events
                  (after first_return_group traffic_events) H)).
Defined.







(** X9. When the stream's context ends while the invoker still waits for the
    start request, [HandleConsume] is never called: no hand-off on
    [startRequest] can complete any more, and every task standing at a
    [select] can leave it only by returning nil.  If the reader returns nil
    too, [Consume] returns a status error of code Canceled when the context
    was cancelled, and [context.DeadlineExceeded] itself when its deadline
    passed. *)
Theorem context_ends_before_start (G : Group) (evs : list event)
    (st : state) (s : sel) (c : cause) :
  run G init evs = Some st ->
  invoker st = ISelect s ->
  sCtx_Err st = None ->
  exists st1,
    step G st (Cancel c) = Some st1 /\
    forall evs' st2,
      run G st1 evs' = Some st2 ->
      calls st2 = [] /\
      handler_running st2 = false /\
      step G st2 StartHandoff = None /\
      only_nil G st2 /\
      forall r,
        main st2 = MReturned r ->
        reader st2 = RDone None ->
        r = Some match c with
                 | cancelled => status_Error Canceled "context canceled"
                 | deadline => context_DeadlineExceeded
                 end.
Proof.
  intros H I S.
  destruct (handshake_run G evs st H) as [_ _ H3 _ _].
  rewrite I in H3.
  assert (X := exit_rule_run G evs st H).
  assert (Mw : main st = MWait).
  { destruct X as [_ [A _]]. destruct (main st) eqn:Em; [reflexivity|..];
      specialize (A ltac:(discriminate)); unfold all_returned in A;
      rewrite I in A; destruct (reader st); destruct (writer st);
      discriminate A. }
  assert (St := step_Cancel G st c S).
  set (st1 := settle G (end_context st c)) in *.
  assert (D1 : ctx_done G st1 = true).
  { unfold ctx_done, st1. rewrite settle_sCtx_Err. reflexivity. }
  assert (W1 : winding_down G st1).
  { split; [exact D1|]. split; [exact (step_no_parked G _ _ _ St D1)|].
    unfold st1. rewrite settle_handler_running. unfold handler_running.
    cbn [invoker end_context]. rewrite I. reflexivity. }
  assert (C1 : calls st1 = []).
  { unfold st1. rewrite settle_calls. exact H3. }
  assert (E1 : ended_early G (cause_error c) st1).
  { split.
    - unfold st1. rewrite settle_sCtx_Err. reflexivity.
    - unfold st1. rewrite settle_main. cbn [main end_context].
      rewrite Mw. trivial. }
  assert (X1 := exit_rule_step G _ _ _ X St).
  exists st1. split; [exact St|].
  intros evs' st2 H2.
  destruct (winding_down_run G evs' st1 st2 W1 H2) as [W2 [E2 _]].
  split; [rewrite E2; exact C1|].
  split; [exact (proj2 (proj2 W2))|].
  split; [exact (no_handoff G st2 (proj1 (proj2 W2)))|].
  split; [exact (winding_down_only_nil G st2 W2)|].
  intros r M R.
  assert (Hall : run G init (evs ++ Cancel c :: evs') = Some st2).
  { rewrite run_app, H. simpl. rewrite St. exact H2. }
  destruct (handshake_run G _ st2 Hall) as [_ _ K3 K4 K5].
  destruct (exit_rule_run G _ st2 Hall) as [_ [A _]].
  rewrite E2, C1 in K3, K4.
  specialize (A ltac:(rewrite M; discriminate)).
  unfold all_returned in A. rewrite R in A.
  destruct (writer st2) as [|m|rw] eqn:Ew; try discriminate A.
  destruct (invoker st2) as [|call|ri] eqn:Ei; try discriminate A.
  specialize (K3 eq_refl). subst ri.
  destruct (K4 eq_refl) as [K4h _]. specialize (K5 K4h).
  destruct rw as [x|]; [destruct K5|].
  destruct (ended_early_run G _ evs' st1 st2 X1 E1 H2) as [_ F].
  rewrite M, (all_nil_Wait G _ st2 Hall R Ew Ei) in F.
  rewrite F. destruct c; reflexivity.
Qed.

Lemma context_ends_before_start_witness :
  main (after first_return_group
          (Cancel cancelled :: cancelled_clean_events)) =
    MReturned (Some (status_Error Canceled "context canceled")) /\
  exists st1,
    step first_return_group init (Cancel deadline) = Some st1 /\
    step first_return_group st1 StartHandoff = None.
Proof.
  split; [vm_compute; reflexivity|].
  destruct (context_ends_before_start first_return_group [] init Arriving
              deadline eq_refl eq_refl eq_refl) as [st1 [S K]].
  exists st1. split; [exact S|].
  exact (proj1 (proj2 (proj2 (K [] st1 eq_refl)))).
Defined.

(** X4. The handler takes the confirmations in the order in which the client
    sent them, none skipped and none repeated: the confirmations taken are
    those received, short of at most the last one (the one the reader is
    offering, or has dropped on returning); while the reader is in
    [stream.Recv] none is missing. *)
Theorem inbound_order (G : Group) (evs : list event) (st : state) :
  run G init evs = Some st ->
  (exists rest,
     confirmations (received st) = confirmed st ++ rest /\
     length rest <= 1) /\
  (forall started,
     reader st = RRecv started ->
     confirmed st = confirmations (received st)).
Proof.
  intro H. assert (I := inbound_run G evs st H). unfold inbound in I.
  split.
  - destruct (reader st) as [b|sr s|c s|r].
    + exists []. rewrite app_nil_r. auto.
    + exists []. rewrite app_nil_r. auto.
    + exists [c]. auto.
    + destruct I as [I|[c I]].
      * exists []. rewrite app_nil_r. auto.
      * exists [c]. auto.
  - intros started R. rewrite R in I. symmetry. exact I.
Qed.

Lemma inbound_order_witness :
  confirmed (after first_return_group traffic_events) =
    [{| MsgID := "1" |}; {| MsgID := "2" |}].
Proof.
  assert (H : run first_return_group init traffic_events =
              Some (after first_return_group traffic_events))
    by (vm_compute; reflexivity).
  rewrite (proj2 (inbound_order first_return_group traffic_events
                    (after first_return_group traffic_events) H)
             true ltac:(vm_compute; reflexivity)).
  vm_compute. reflexivity.
Defined.

(** X10. [Consume] returns only after the reader, the writer and the invoker
    have all returned, and what it returns is an error one of them
    returned, or nil, or the error of the stream's context, bare or as a
    status error of code Canceled. *)
Theorem returns_after_tasks (G : Group) (evs : list event) (st : state)
    (r : result) :
  run G init evs = Some st ->
  main st = MReturned r ->
  (exists rr rw ri,
     reader st = RDone rr /\ writer st = WDone rw /\ invoker st = IDone ri) /\
  ((exists e, r = Some e /\
              (reader st = RDone r \/ writer st = WDone r \/
               invoker st = IDone r)) \/
   r = None \/
   r = Some context_Canceled \/
   r = Some context_DeadlineExceeded \/
   r = Some (status_Error Canceled "context canceled")).
Proof.
  intros H M. destruct (exit_rule_run G evs st H) as [_ [A B]].
  split.
  - specialize (A ltac:(rewrite M; discriminate)).
    unfold all_returned in A.
    destruct (reader st) as [| | |rr]; try discriminate A.
    destruct (writer st) as [| |rw]; try discriminate A.
    destruct (invoker st) as [| |ri]; try discriminate A.
    exists rr, rw, ri. auto.
  - rewrite M in B.
    destruct (group_Wait G (returns st)) as [e|] eqn:W.
    + left. exists e. split; [exact B|]. subst r.
      apply (returns_origin_run G evs st H).
      exact (group_Wait_origin G _ _ W).
    + right. destruct B as [B|[c [_ [B|[_ B]]]]]; subst r; auto.
      destruct c; auto.
Qed.

Lemma returns_after_tasks_witness :
  exists rr rw ri,
    reader (after first_return_group clean_close_events) = RDone rr /\
    writer (after first_return_group clean_close_events) = WDone rw /\
    invoker (after first_return_group clean_close_events) = IDone ri.
Proof.
  assert (H : run first_return_group init clean_close_events =
              Some (after first_return_group clean_close_events))
    by (vm_compute; reflexivity).
  exact (proj1 (returns_after_tasks first_return_group clean_close_events
                  (after first_return_group clean_close_events) None H
                  ltac:(vm_compute; reflexivity))).
Defined.

(** * Properties of the process start-up (main.go) *)

(** X12. When every piece of the [endpoints] option, split at its commas,
    is one of the two names "consume" and "publish", [parseEndpoints]
    returns a map: it has logged one "endpoint enabled" line per piece, in
    the order of the pieces (a name given twice is logged twice), and the
    map reads [true] at exactly the names that occur among the pieces. *)
Theorem parseEndpoints_accepts (endpoints : string) :
  Forall endpoint_name (strings_Split endpoints comma) ->
  exists enabled,
    parseEndpoints endpoints
      = (map enabled_line (strings_Split endpoints comma), Some enabled) /\
    forall key,
      enabled key = true <-> In key (strings_Split endpoints comma).
Proof.
  intros F.
  destruct (parseEndpoints_range_ok _ F make_map []) as [m [E K]].
  exists m. split; [exact E|].
  intros key. rewrite K. unfold make_map. intuition discriminate.
Qed.

Lemma parseEndpoints_accepts_witness :
  exists enabled,
    parseEndpoints "publish,consume,publish"
      = ([enabled_line "publish"; enabled_line "consume";
          enabled_line "publish"], Some enabled) /\
    enabled "consume" = true /\ enabled "publish" = true /\
    enabled "" = false.
Proof.
  assert (F : Forall endpoint_name
                (strings_Split "publish,consume,publish" comma))
    by (repeat (constructor; [unfold endpoint_name; auto|]); constructor).
  destruct (parseEndpoints_accepts "publish,consume,publish" F)
    as [m [E K]].
  exists m. split; [exact E|].
  split; [apply K; simpl; auto|].
  split; [apply K; simpl; auto|].
  destruct (m "") eqn:M; [|reflexivity].
  apply K in M. simpl in M.
  repeat (destruct M as [M|M]; [discriminate|]). destruct M.
Defined.

(** X13. The first piece that is neither "consume" nor "publish" ends the
    process through [log.Fatalf]: the pieces before it have been logged as
    enabled, the offending piece is reported verbatim, the pieces after it
    are not looked at, and no map is returned. *)
Theorem parseEndpoints_rejects (endpoints : string)
    (before : list string) (bad : string) (rest : list string) :
  strings_Split endpoints comma = before ++ bad :: rest ->
  Forall endpoint_name before ->
  ~ endpoint_name bad ->
  parseEndpoints endpoints
    = (map enabled_line before ++ [invalid_line bad], None).
Proof.
  intros S F B. unfold parseEndpoints. rewrite S.
  exact (parseEndpoints_range_bad before bad rest F B make_map []).
Qed.

Lemma parseEndpoints_rejects_witness :
  parseEndpoints "consume, publish,nonsense"
    = ([enabled_line "consume"; invalid_line " publish"], None).
Proof.
  apply (parseEndpoints_rejects "consume, publish,nonsense"
           ["consume"] " publish" ["nonsense"]).
  - reflexivity.
  - constructor; [left; reflexivity|constructor].
  - intros [H|H]; discriminate.
Defined.

(** X14. [parseEndpoints] returns a map exactly for the values of the
    option that are one or more of the names "consume" and "publish"
    written with a single comma between neighbours and nothing else: the
    empty string, a leading, trailing or doubled comma and a blank next to
    a name all end the process. *)
Theorem accepted_endpoints (endpoints : string) :
  (exists enabled, snd (parseEndpoints endpoints) = Some enabled) <->
  (exists names,
      names <> [] /\ Forall endpoint_name names /\
      endpoints = joined names comma).
Proof.
  split.
  - intros [enabled H]. exists (strings_Split endpoints comma).
    split; [apply strings_Split_not_nil|].
    split; [exact (parseEndpoints_range_Some _ _ _ _ H)|].
    symmetry. apply joined_strings_Split.
  - intros [names [N [F E]]]. subst endpoints.
    assert (S : strings_Split (joined names comma) comma = names).
    { apply strings_Split_joined; [exact N|].
      rewrite Forall_forall in *. intros p Hp.
      apply endpoint_name_no_comma, F, Hp. }
    unfold parseEndpoints. rewrite S.
    destruct (parseEndpoints_range_ok _ F make_map []) as [m [E _]].
    exists m. rewrite E. reflexivity.
Qed.

(** X15. [listenAndServe] returns nil exactly when [net.Listen] succeeded
    and either a signal arrived or [grpcServer.Serve] itself returned nil;
    a nil result of [Serve] is not turned into an error by [errors.Wrap]. *)
Theorem listenAndServe_nil (handler : Type) (hs : handlers handler)
    (port : Z) (listen : result) (w : wake_up) :
  snd (listenAndServe handler hs port listen w) = None <->
  listen = None /\ (w = Signalled \/ w = Serve_returned None).
Proof.
  unfold listenAndServe.
  destruct listen as [e|]; simpl.
  - split; [discriminate|]. intros [H _]. discriminate.
  - destruct w as [[e|]|]; simpl; split; intros H;
      try discriminate; auto.
    destruct H as [_ [H|H]]; discriminate.
Qed.

Section MainProperties.

Variable KafkaVersion : Type.
Variable ParseKafkaVersion : string -> KafkaVersion + error.

(** X16. When the process gets as far as serving (no [log.Fatalf] on the
    way and [net.Listen] succeeds), the message source service is
    registered exactly when "consume" is among the pieces of the
    [endpoints] option, and the message sink service exactly when
    "publish" is, whichever back end the command names. *)
Theorem served_endpoints (port : Z) (endpoints : string) (cmd : command)
    (w : world) (tr : list (effect (handler KafkaVersion))) (r : result) :
  main_effects KafkaVersion ParseKafkaVersion port endpoints cmd w
    = (tr, Some r) ->
  listen_err w = None ->
  ((exists h, In (Register MessageSource h) tr) <->
   In consumeEndpoint (strings_Split endpoints comma)) /\
  ((exists h, In (Register MessageSink h) tr) <->
   In publishEndpoint (strings_Split endpoints comma)).
Proof.
  intros M L.
  destruct (main_effects_Some _ _ _ _ _ _ _ _ M)
    as [enabled [done [hs [P [A [T _]]]]]].
  pose proof (run_action_effects _ _ _ _ _ _ _ A) as D.
  destruct (run_action_handlers _ _ _ _ _ _ _ A) as [C S].
  rewrite (parseEndpoints_enabled _ _ P) in C, S.
  rewrite <- C, <- S. clear C S.
  assert (R : forall svc h,
             In (Register svc h) tr <->
             In (Register svc h) (registrations _ hs)).
  { intros svc h. subst tr. unfold listenAndServe. rewrite L. simpl.
    rewrite in_app_iff. simpl. rewrite in_app_iff. simpl.
    pose proof (action_effect_not_Register _ done svc h D) as N.
    split; intros H.
    - destruct H as [H|[H|[H|H]]]; try discriminate; try contradiction.
      + exact H.
      + repeat (destruct H as [H|H]; [discriminate|]). destruct H.
    - auto. }
  split; split.
  - intros [h H]. apply R, registrations_In in H.
    destruct H as [[_ H]|[H _]]; [eauto|discriminate].
  - intros [h H]. exists h. apply R, registrations_In. auto.
  - intros [h H]. apply R, registrations_In in H.
    destruct H as [[H _]|[_ H]]; [discriminate|eauto].
  - intros [h H]. exists h. apply R, registrations_In. auto.
Qed.

(** X17. With the NATS streaming back end, every handler that is
    registered with the gRPC server has been closed before the server even
    listens: the [defer h.Close()] of the command's action runs when the
    action returns, and [listenAndServe] is called only after that.  In the
    order of events: the handler is connected, it is closed, the port is
    opened, the handler is registered. *)
Theorem nats_closed_before_serving (port : Z) (endpoints : string)
    (w : world) (tr : list (effect (handler KafkaVersion))) (r : result)
    (svc : service) (h : handler KafkaVersion)
    (before rest : list (effect (handler KafkaVersion))) :
  main_effects KafkaVersion ParseKafkaVersion port endpoints
    nats_streaming w = (tr, Some r) ->
  tr = before ++ Register svc h :: rest ->
  exists a b c,
    before = a ++ Connect h :: b ++ Close h :: c /\ In (Listen port) c.
Proof.
  intros M T.
  destruct (main_effects_Some _ _ _ _ _ _ _ _ M)
    as [enabled [done [hs [_ [A [E _]]]]]].
  simpl in A. unfold nats_action in A. unfold listenAndServe in E.
  destruct (listen_err w) as [e|].
  - (* nothing is registered when Listen fails *)
    exfalso.
    pose proof (run_action_effects _ ParseKafkaVersion enabled
                  nats_streaming w done (Some hs)) as D.
    simpl in D. unfold nats_action in D. specialize (D A).
    assert (I : In (Register svc h) tr)
      by (rewrite T; apply in_elt).
    rewrite E in I. simpl in I. apply in_app_iff in I.
    destruct I as [I|[I|[]]]; [|discriminate].
    exact (action_effect_not_Register _ _ _ _ D I).
  - destruct (enabled consumeEndpoint), (nats_consume_err w),
      (enabled publishEndpoint), (nats_produce_err w);
      try discriminate; injection A as <- <-;
      cbv [registrations cHandler pHandler app] in E;
      rewrite E in T; clear E M;
      walk_to T;
      first
        [ refine (ex_intro _ [] (ex_intro _ []
                    (ex_intro _ _ (conj eq_refl _)))); simpl; tauto
        | refine (ex_intro _ [] (ex_intro _ [_]
                    (ex_intro _ _ (conj eq_refl _)))); simpl; tauto
        | refine (ex_intro _ [] (ex_intro _ [_; _]
                    (ex_intro _ _ (conj eq_refl _)))); simpl; tauto
        | refine (ex_intro _ [_] (ex_intro _ []
                    (ex_intro _ _ (conj eq_refl _)))); simpl; tauto ].
Qed.

(** X18. The process is ended by [log.Fatalf] before it listens exactly in
    these cases: a piece of the [endpoints] option is not one of the two
    names; the kafka command is given a version that is not empty and does
    not parse; the nats-streaming command fails to construct the handler of
    an endpoint that is enabled.  The in-memory back end never fails, an
    empty kafka version is not parsed, and a NATS constructor is not
    consulted for an endpoint that is not enabled. *)
Theorem fatal_start (port : Z) (endpoints : string) (cmd : command)
    (w : world) :
  snd (main_effects KafkaVersion ParseKafkaVersion port endpoints cmd w)
    = None <->
  (~ Forall endpoint_name (strings_Split endpoints comma) \/
   (exists brokers version e,
       cmd = kafka brokers version /\ version <> "" /\
       ParseKafkaVersion version = inr e) \/
   (cmd = nats_streaming /\
    ((In consumeEndpoint (strings_Split endpoints comma) /\
      nats_consume_err w <> None) \/
     (In publishEndpoint (strings_Split endpoints comma) /\
      nats_produce_err w <> None)))).
Proof.
  rewrite main_effects_None.
  destruct (snd (parseEndpoints endpoints)) as [enabled|] eqn:P.
  - pose proof (parseEndpoints_range_Some _ _ _ _ P) as F.
    pose proof (parseEndpoints_enabled _ _ P) as K.
    rewrite <- !K. clear K P.
    destruct cmd as [b v| |]; simpl.
    + unfold kafka_action.
      destruct (String.eqb v "") eqn:V.
      * apply String.eqb_eq in V. simpl. split; [discriminate|].
        intros [H|[[b' [v' [e [H1 [H2 _]]]]]|[H _]]];
          [contradiction|injection H1 as <- <-; contradiction
          |discriminate].
      * apply String.eqb_neq in V.
        destruct (ParseKafkaVersion v) as [kv|e] eqn:K; simpl.
        -- split; [discriminate|].
           intros [H|[[b' [v' [e [H1 [_ H2]]]]]|[H _]]];
             [contradiction|injection H1 as <- <-; congruence
             |discriminate].
        -- split; [|reflexivity]. intros _. right. left.
           exists b, v, e. auto.
    + unfold nats_action.
      destruct (enabled consumeEndpoint), (nats_consume_err w),
        (enabled publishEndpoint), (nats_produce_err w); simpl;
        (split;
         [ first [ discriminate
                 | intros _; right; right; split; [reflexivity|];
                   first [ left; split; [reflexivity|discriminate]
                         | right; split; [reflexivity|discriminate] ] ]
         | first [ reflexivity
                 | intros [H|[[b' [v' [e' [H1 _]]]]|[_ [[H1 H2]|[H1 H2]]]]];
                   first [ contradiction | discriminate | congruence ] ] ]).
    + unfold mem_action. simpl. split; [discriminate|].
      intros [H|[[b' [v' [e [H1 _]]]]|[H _]]];
        [contradiction|discriminate|discriminate].
  - split; [|trivial]. intros _. left. intros F.
    unfold parseEndpoints in P.
    destruct (parseEndpoints_range_ok _ F make_map []) as [m [E _]].
    rewrite E in P. discriminate.
Qed.

(** X19. When [log.Fatalf] ends the process, nothing has been listened on,
    registered or served, and no deferred call has run: a NATS handler that
    was connected before the failure is not closed. *)
Theorem fatal_runs_no_defer (port : Z) (endpoints : string) (cmd : command)
    (w : world) (tr : list (effect (handler KafkaVersion))) :
  main_effects KafkaVersion ParseKafkaVersion port endpoints cmd w
    = (tr, None) ->
  forall e, In e tr -> exists h, e = Connect h.
Proof.
  intros M. apply main_effects_fatal in M.
  destruct M as [->|[enabled A]]; [intros e []|].
  destruct cmd as [b v| |]; simpl in A.
  - unfold kafka_action in A.
    destruct (String.eqb v ""); [|destruct (ParseKafkaVersion v)];
      try discriminate; injection A as <-; intros ? [].
  - unfold nats_action in A.
    destruct (enabled consumeEndpoint), (nats_consume_err w),
      (enabled publishEndpoint), (nats_produce_err w);
      try discriminate; injection A as <-; intros x I;
      simpl in I;
      repeat (destruct I as [I|I]; [subst x; eauto|]); destruct I.
  - discriminate.
Qed.

End MainProperties.

Lemma served_endpoints_witness :
  (exists h, In (Register MessageSource h)
               (fst (main_effects unit (fun _ => inl tt) 6868 "publish"
                       mem calm_world))) <-> False.
Proof.
  destruct (served_endpoints unit (fun _ => inl tt) 6868 "publish" mem
              calm_world _ None eq_refl eq_refl) as [C _].
  rewrite C. simpl. split; [|tauto].
  intros [H|[]]. discriminate.
Defined.

Lemma nats_closed_before_serving_witness :
  exists a b c : list (effect (handler unit)),
    [Connect (natsConsumeHandler unit); Connect (natsProduceHandler unit);
     Close (natsProduceHandler unit); Close (natsConsumeHandler unit);
     Listen 6868; Register MessageSource (natsConsumeHandler unit)]
    = a ++ Connect (natsProduceHandler unit)
        :: b ++ Close (natsProduceHandler unit) :: c /\
    In (Listen 6868) c.
Proof.
  exact (nats_closed_before_serving unit (fun _ => inl tt) 6868
           default_endpoints calm_world _ None MessageSink
           (natsProduceHandler unit)
           [Connect (natsConsumeHandler unit);
            Connect (natsProduceHandler unit);
            Close (natsProduceHandler unit);
            Close (natsConsumeHandler unit);
            Listen 6868; Register MessageSource (natsConsumeHandler unit)]
           [Serve; Stop; CloseListener] eq_refl eq_refl).
Defined.

Lemma fatal_runs_no_defer_witness :
  exists h,
    Connect (natsConsumeHandler unit) = Connect (handler := handler unit) h.
Proof.
  apply (fatal_runs_no_defer unit (fun _ => inl tt) 6868 default_endpoints
           nats_streaming producer_down_world
           [Connect (natsConsumeHandler unit)] eq_refl).
  simpl. auto.
Defined.
